(** * Graph colouring as a CSP: AC-3, MRV/LCV backtracking and the undo trail

    A shallow embedding of [graph_csp.py] (functions [revise], [ac3],
    [select_unassigned_variable], [order_domain_values], [backtrack] and
    [solve_graph_coloring]) and the proofs of its specification.

    Python objects and their models:
    - [domains], a dict from vertex to a set of colours: [gmap Z (gset Z)];
    - [trail], a list of (vertex, colour) pairs used as a stack whose top is
      the last element: [list (Z * Z)], [append] is [++ [_]];
    - [assignment], a dict from vertex to colour: [gmap Z Z];
    - [adj], a dict from vertex to the list of its neighbours, always read
      with [adj.get(v, [])]: [gmap Z (list Z)] and [adj_get];
    - [queue], a deque of arcs: [list (Z * Z)], [popleft] takes the head and
      [append] adds at the end.
    The dicts and the trail are mutated in place by the source; here the
    store is threaded through every call, and each function returns the store
    it leaves behind together with its outcome, also when it raises.

    Python leaves the order in which a set is iterated unspecified;
    [elements] fixes one. The source sorts wherever the order could reach a
    result ([sorted], [list.sort], [min]); elsewhere it decides only the
    order in which the entries of one forcing are appended to the trail.
    Python bounds the depth of recursion, and the source never raises the
    bound. [backtrack] takes as fuel the number of nested calls of itself
    that the interpreter has room for; [solve_graph_coloring_within] and
    [main_within] are the solver and the script run within such a depth,
    with [RecursionError] where the depth is exceeded, and
    [solve_graph_coloring] and [main] are the runs with room enough. *)

From stdpp Require Import gmap list sorting relations.

Set Default Proof Using "Type".
#[local] Set Warnings "-clear-no-such-hyp".

(** ** Outcomes *)

(** The exceptions the code can raise: [KeyError] from [domains[v]] and from
    [set.remove], [ValueError] from [min] of an empty set, and
    [RecursionError] from a call of [backtrack] nested deeper than the
    interpreter allows. *)
Inductive exn := KeyError | ValueError | RecursionError.

(** What a call does: it returns a value, raises, or (for the two loops whose
    termination is not structural) runs out of the fuel it was given. *)
Inductive outcome (A : Type) :=
  | Return (a : A)
  | Raise (e : exn)
  | OutOfFuel.
Arguments Return {A} a.
Arguments Raise {A} e.
Arguments OutOfFuel {A}.

(** ** The domain store *)

Record store := Store {
  domains : gmap Z (gset Z);
  trail : list (Z * Z)
}.

Definition adj_get (adj : gmap Z (list Z)) (v : Z) : list Z :=
  default [] (adj !! v).

(** [domains[X].remove(val); trail.append((X, val))] for each [val] of a
    list, as in [revise] (lines 73-75) and in [backtrack] (lines 140-142).
    [domains[X]] raises [KeyError] for an unknown [X], and so does
    [set.remove] for an absent value. *)
Fixpoint remove_each (X : Z) (vals : list Z) (s : store) : outcome unit * store :=
  match vals with
  | [] => (Return (), s)
  | val :: vals' =>
      match domains s !! X with
      | None => (Raise KeyError, s)
      | Some domX =>
          if decide (val ∈ domX)
          then remove_each X vals'
                 (Store (<[X := domX ∖ {[val]}]> (domains s)) (trail s ++ [(X, val)]))
          else (Raise KeyError, s)
      end
  end.

(** [len(domY) == 1 and next(iter(domY)) == x] *)
Definition sole_value (domY : gset Z) (x : Z) : Prop :=
  size domY = 1 ∧ head (elements domY) = Some x.

Global Instance sole_value_dec domY x : Decision (sole_value domY x).
Proof. unfold sole_value. apply _. Defined.

(** [revise(X, Y, domains, adj, trail)], lines 58-77. *)
Definition revise (X Y : Z) (s : store) : outcome bool * store :=
  match domains s !! X with
  | None => (Raise KeyError, s)
  | Some domX =>
      match domains s !! Y with
      | None => (Raise KeyError, s)
      | Some domY =>
          let to_remove := filter (sole_value domY) (elements domX) in
          match to_remove with
          | [] => (Return false, s)
          | _ :: _ =>
              match remove_each X to_remove s with
              | (Return _, s') => (Return true, s')
              | (Raise e, s') => (Raise e, s')
              | (OutOfFuel, s') => (OutOfFuel, s')
              end
          end
      end
  end.

(** The arcs [ac3] appends after a successful revision of [Xi] against [Xj]:
    [(Xk, Xi)] for each [Xk] in [adj.get(Xi, [])] other than [Xj]. *)
Definition new_arcs (adj : gmap Z (list Z)) (Xi Xj : Z) : list (Z * Z) :=
  (λ Xk, (Xk, Xi)) <$> filter (λ Xk, Xk ≠ Xj) (adj_get adj Xi).

(** [ac3(queue, domains, adj, trail)], lines 79-94: the [while queue] loop,
    one iteration per unit of fuel. *)
Fixpoint ac3_loop (fuel : nat) (adj : gmap Z (list Z)) (queue : list (Z * Z))
    (s : store) : outcome bool * store :=
  match queue with
  | [] => (Return true, s)
  | (Xi, Xj) :: queue' =>
      match fuel with
      | O => (OutOfFuel, s)
      | S fuel' =>
          match revise Xi Xj s with
          | (Return true, s') =>
              match domains s' !! Xi with
              | None => (Raise KeyError, s')
              | Some domXi =>
                  if decide (size domXi = 0) then (Return false, s')
                  else ac3_loop fuel' adj (queue' ++ new_arcs adj Xi Xj) s'
              end
          | (Return false, s') => ac3_loop fuel' adj queue' s'
          | (Raise e, s') => (Raise e, s')
          | (OutOfFuel, s') => (OutOfFuel, s')
          end
      end
  end.

(** The number of colours left in all domains together. *)
Definition total_size (d : gmap Z (gset Z)) : nat :=
  map_fold (λ _ dom n, size dom + n) 0 d.

(** The longest adjacency list. *)
Definition max_degree (adj : gmap Z (list Z)) : nat :=
  map_fold (λ _ nbs n, length nbs `max` n) 0 adj.

(** A number of iterations [ac3] cannot exceed: an iteration either shortens
    the queue by one arc, or removes a colour and appends at most
    [max_degree adj] arcs. *)
Definition ac3_fuel (adj : gmap Z (list Z)) (queue : list (Z * Z)) (s : store) : nat :=
  length queue + total_size (domains s) * S (max_degree adj).

Definition ac3 (adj : gmap Z (list Z)) (queue : list (Z * Z)) (s : store)
    : outcome bool * store :=
  ac3_loop (ac3_fuel adj queue s) adj queue s.

(** ** The search heuristics *)

(** Python's order on the tuples [(count, value)]: first component, then
    second. *)
Definition tuple_le (p q : nat * Z) : Prop :=
  p.1 < q.1 ∨ (p.1 = q.1 ∧ (p.2 ≤ q.2)%Z).

Global Instance tuple_le_dec p q : Decision (tuple_le p q).
Proof. unfold tuple_le. apply _. Defined.

(** The list [candidates] of [select_unassigned_variable], lines 102-105:
    [(len(dom), var)] for each unassigned [var]. *)
Definition candidates (d : gmap Z (gset Z)) (a : gmap Z Z) : list (nat * Z) :=
  (λ vd : Z * gset Z, (size vd.2, vd.1))
    <$> filter (λ vd : Z * gset Z, a !! vd.1 = None) (map_to_list d).

(** [select_unassigned_variable(domains, assignment)], lines 97-109. *)
Definition select_unassigned_variable (d : gmap Z (gset Z)) (a : gmap Z Z)
    : option Z :=
  match merge_sort tuple_le (candidates d a) with
  | [] => None
  | c :: _ => Some c.2
  end.

(** [sorted(set)]: the elements in increasing order. *)
Definition sorted (dom : gset Z) : list Z := merge_sort Z.le (elements dom).

(** The inner loop of [order_domain_values], lines 119-124: the number of
    entries [nb] of the adjacency list that are not assigned and whose domain
    contains [val]. [domains[nb]] raises for an unknown [nb]. *)
Fixpoint eliminated (d : gmap Z (gset Z)) (a : gmap Z Z) (val : Z)
    (nbs : list Z) (acc : nat) : outcome nat :=
  match nbs with
  | [] => Return acc
  | nb :: nbs' =>
      match a !! nb with
      | Some _ => eliminated d a val nbs' acc
      | None =>
          match d !! nb with
          | None => Raise KeyError
          | Some domnb =>
              eliminated d a val nbs' (if decide (val ∈ domnb) then S acc else acc)
          end
      end
  end.

(** The outer loop, lines 118-125. *)
Fixpoint count_values (d : gmap Z (gset Z)) (a : gmap Z Z) (nbs : list Z)
    (vals : list Z) : outcome (list (nat * Z)) :=
  match vals with
  | [] => Return []
  | val :: vals' =>
      match eliminated d a val nbs 0 with
      | Return n =>
          match count_values d a nbs vals' with
          | Return counts => Return ((n, val) :: counts)
          | Raise e => Raise e
          | OutOfFuel => OutOfFuel
          end
      | Raise e => Raise e
      | OutOfFuel => OutOfFuel
      end
  end.

(** [order_domain_values(var, domains, adj, assignment)], lines 111-127. *)
Definition order_domain_values (var : Z) (d : gmap Z (gset Z))
    (adj : gmap Z (list Z)) (a : gmap Z Z) : outcome (list Z) :=
  match d !! var with
  | None => Raise KeyError
  | Some dom =>
      match count_values d a (adj_get adj var) (sorted dom) with
      | Return counts => Return ((merge_sort tuple_le counts).*2)
      | Raise e => Raise e
      | OutOfFuel => OutOfFuel
      end
  end.

(** ** Backtracking search *)

(** The rollback loop of [backtrack], lines 156-159:
    [v, val = trail.pop(); if val not in domains[v]: domains[v].add(val)],
    run [n] times. The loop pops only while the trail is longer than the
    mark, so the trail is not empty when [n] is not zero. *)
Fixpoint restore_loop (n : nat) (s : store) : outcome unit * store :=
  match n with
  | O => (Return (), s)
  | S n' =>
      match reverse (trail s) with
      | [] => (Return (), s)
      | (v, val) :: rest =>
          let s1 := Store (domains s) (reverse rest) in
          match domains s !! v with
          | None => (Raise KeyError, s1)
          | Some domv =>
              if decide (val ∈ domv) then restore_loop n' s1
              else restore_loop n' (Store (<[v := domv ∪ {[val]}]> (domains s)) (reverse rest))
          end
      end
  end.

(** [while len(trail) > trail_snapshot: ...]: the loop body runs once for
    each entry above the mark. *)
Definition restore_to (mark : nat) (s : store) : outcome unit * store :=
  restore_loop (length (trail s) - mark) s.

(** Lines 139-142: force the domain of [var] to the single [value]. *)
Definition force (var value : Z) (s : store) : outcome unit * store :=
  match domains s !! var with
  | None => (Raise KeyError, s)
  | Some dom => remove_each var (filter (λ v, v ≠ value) (elements dom)) s
  end.

(** [any(len(domains[x]) == 0 for x in domains)] *)
Definition empty_found (d : gmap Z (gset Z)) : bool :=
  existsb (λ vd : Z * gset Z, bool_decide (size vd.2 = 0)) (map_to_list d).

Definition search_result : Type := outcome bool * store * gmap Z Z.

(** Lines 145-147: the arcs [(nb, var)] for the neighbours of [var]. *)
Definition assign_queue (adj : gmap Z (list Z)) (var : Z) : list (Z * Z) :=
  (λ nb, (nb, var)) <$> adj_get adj var.

(** The [for value in ...] loop of [backtrack], lines 137-162; [rec] is the
    recursive call of line 152. *)
Fixpoint try_values (rec : store → gmap Z Z → search_result)
    (adj : gmap Z (list Z)) (var : Z) (values : list Z)
    (s : store) (a : gmap Z Z) : search_result :=
  match values with
  | [] => (Return false, s, a)
  | value :: values' =>
      let trail_snapshot := length (trail s) in
      match force var value s with
      | (Return _, s1) =>
          let a1 := <[var := value]> a in
          let queue := assign_queue adj var in
          let rollback (s' : store) : search_result :=
            match restore_to trail_snapshot s' with
            | (Return _, s'') =>
                try_values rec adj var values' s'' (delete var a1)
            | (Raise e, s'') => (Raise e, s'', a1)
            | (OutOfFuel, s'') => (OutOfFuel, s'', a1)
            end in
          match ac3 adj queue s1 with
          | (Return true, s2) =>
              if empty_found (domains s2) then rollback s2
              else
                match rec s2 a1 with
                | (Return true, s3, a3) => (Return true, s3, a3)
                | (Return false, s3, a3) =>
                    match restore_to trail_snapshot s3 with
                    | (Return _, s4) =>
                        try_values rec adj var values' s4 (delete var a3)
                    | (Raise e, s4) => (Raise e, s4, a3)
                    | (OutOfFuel, s4) => (OutOfFuel, s4, a3)
                    end
                | (Raise e, s3, a3) => (Raise e, s3, a3)
                | (OutOfFuel, s3, a3) => (OutOfFuel, s3, a3)
                end
          | (Return false, s2) => rollback s2
          | (Raise e, s2) => (Raise e, s2, a1)
          | (OutOfFuel, s2) => (OutOfFuel, s2, a1)
          end
      | (Raise e, s1) => (Raise e, s1, a)
      | (OutOfFuel, s1) => (OutOfFuel, s1, a)
      end
  end.

(** [backtrack(domains, adj, assignment, trail)], lines 129-162; one unit of
    fuel per level of recursion. With the depth that the interpreter allows
    as fuel, running out of it is Python's [RecursionError]. *)
Fixpoint backtrack (fuel : nat) (adj : gmap Z (list Z)) (s : store)
    (a : gmap Z Z) : search_result :=
  match fuel with
  | O => (OutOfFuel, s, a)
  | S fuel' =>
      if decide (size a = size (domains s)) then (Return true, s, a)
      else
        match select_unassigned_variable (domains s) a with
        | None => (Return false, s, a)
        | Some var =>
            match order_domain_values var (domains s) adj a with
            | Return values => try_values (backtrack fuel' adj) adj var values s a
            | Raise e => (Raise e, s, a)
            | OutOfFuel => (OutOfFuel, s, a)
            end
        end
  end.

(** ** The solver *)

(** [min(set)]; Python raises [ValueError] on the empty set. *)
Definition set_min (dom : gset Z) : option Z :=
  match elements dom with
  | [] => None
  | x :: xs => Some (foldl Z.min x xs)
  end.

(** Lines 188-194: complete the assignment from the domains. *)
Fixpoint assemble (variables : list Z) (d : gmap Z (gset Z)) (a : gmap Z Z)
    : outcome (option (gmap Z Z)) :=
  match variables with
  | [] => Return (Some a)
  | v :: variables' =>
      match a !! v with
      | Some _ => assemble variables' d a
      | None =>
          match d !! v with
          | None => Raise KeyError
          | Some dom =>
              if decide (1 ≤ size dom) then
                match set_min dom with
                | Some c => assemble variables' d (<[v := c]> a)
                | None => Raise ValueError
                end
              else Return None
          end
      end
  end.

(** Lines 165-167: every variable starts with the colours [range(1, k+1)]. *)
Definition initial_domains (k : Z) (variables : list Z) : gmap Z (gset Z) :=
  foldl (λ d v, <[v := list_to_set (seqZ 1 k)]> d) ∅ variables.

(** Lines 172-175: the arcs [(Xi, Xj)] for each variable and each of its
    neighbours. *)
Definition initial_queue (variables : list Z) (adj : gmap Z (list Z))
    : list (Z * Z) :=
  Xi ← variables; (λ Xj, (Xi, Xj)) <$> adj_get adj Xi.

(** [solve_graph_coloring(k, variables, adj)], lines 164-194, run with
    room enough for the recursion. [Return None] is the failure signal,
    [Return (Some m)] a mapping. The recursion of [backtrack] is at most one
    level deeper than there are variables, and [backtrack] is given that
    depth here; [solve_graph_coloring_within] is the run within a given
    depth. *)
Definition solve_graph_coloring (k : Z) (variables : list Z)
    (adj : gmap Z (list Z)) : outcome (option (gmap Z Z)) :=
  let s0 := Store (initial_domains k variables) [] in
  match ac3 adj (initial_queue variables adj) s0 with
  | (Return true, s1) =>
      if empty_found (domains s1) then Return None
      else
        match backtrack (S (size (domains s1))) adj s1 ∅ with
        | (Return true, s2, a2) => assemble variables (domains s2) a2
        | (Return false, _, _) => Return None
        | (Raise e, _, _) => Raise e
        | (OutOfFuel, _, _) => OutOfFuel
        end
  | (Return false, _) => Return None
  | (Raise e, _) => Raise e
  | (OutOfFuel, _) => OutOfFuel
  end.

(** ** Reading the input and printing the result *)

(** What lines 12-29 of [parse_input] make of one line of the file. The text
    of a line is read with Python's [str] methods and with [int], which are
    not part of this repository; a line enters the model as what they find
    in it:
    - [Ignored]: the line is empty after [strip], starts with '#', does not
      split at ',' into two parts, or has a part for which [int] raises
      [ValueError] (lines 13-14, 23-24 and 28-29);
    - [Colors k]: the line starts with 'colors=', in any case; [k] is the
      [int] of what follows the '=', or [None] when that raises (lines
      15-20);
    - [Pair u v]: the two parts are the integers [u] and [v] (lines 22-27).
    Opening and decoding the file (lines 10 and 38-40) are not modelled. *)
Inductive line :=
  | Ignored
  | Colors (k : option Z)
  | Pair (u v : Z).

Global Instance line_eq_dec : EqDecision line.
Proof. solve_decision. Defined.

(** Line 34: [a, b = (u, v) if u <= v else (v, u)]. *)
Definition norm_edge (u v : Z) : Z * Z :=
  if decide (u ≤ v)%Z then (u, v) else (v, u).

(** The loop over the lines, lines 11-37, with the variables [k], [edges]
    and [vertices]; [None] when the loop prints 'failure' and exits. *)
Fixpoint read_lines (lines : list line) (k : option Z) (edges : gset (Z * Z))
    (vertices : gset Z) : option (option Z * gset (Z * Z) * gset Z) :=
  match lines with
  | [] => Some (k, edges, vertices)
  | Ignored :: lines' => read_lines lines' k edges vertices
  | Colors None :: _ => None
  | Colors (Some k') :: lines' => read_lines lines' (Some k') edges vertices
  | Pair u v :: lines' =>
      if decide (u = v) then None
      else
        let ab := norm_edge u v in
        read_lines lines' k ({[ab]} ∪ edges) ({[ab.2]} ∪ ({[ab.1]} ∪ vertices))
  end.

(** [solve_graph_coloring(k, variables, adj)], lines 164-194, run by an
    interpreter that has room for [depth] nested calls of [backtrack]: the
    call of line 152 that would go deeper raises [RecursionError], which
    nothing in the source catches, so that it ends the solver. [depth] is
    the interpreter's limit on the depth of recursion less the frames that
    are on the stack when [backtrack] is first called and the one or two
    frames of the calls that the deepest [backtrack] makes to the other
    functions; how many those are depends on the interpreter. CPython's
    default limit of 1000 frames, which the source does not change, leaves
    room for about 995 calls, and for fewer than 1000. The loop of [ac3]
    never runs out of its own fuel ([ac3_terminates]), so that [backtrack]
    is out of fuel only when it is out of depth. *)
Definition solve_graph_coloring_within (depth : nat) (k : Z)
    (variables : list Z) (adj : gmap Z (list Z)) : outcome (option (gmap Z Z)) :=
  let s0 := Store (initial_domains k variables) [] in
  match ac3 adj (initial_queue variables adj) s0 with
  | (Return true, s1) =>
      if empty_found (domains s1) then Return None
      else
        match backtrack depth adj s1 ∅ with
        | (Return true, s2, a2) => assemble variables (domains s2) a2
        | (Return false, _, _) => Return None
        | (Raise e, _, _) => Raise e
        | (OutOfFuel, _, _) => Raise RecursionError
        end
  | (Return false, _) => Return None
  | (Raise e, _) => Raise e
  | (OutOfFuel, _) => OutOfFuel
  end.

(** [adj[u].append(v)] with [adj] a [defaultdict(list)]. *)
Definition adj_append (u v : Z) (adj : gmap Z (list Z)) : gmap Z (list Z) :=
  <[u := adj_get adj u ++ [v]]> adj.

(** Lines 46-52: the adjacency lists of the edges, each then sorted and
    without duplicates. *)
Definition build_adj (edges : gset (Z * Z)) : gmap Z (list Z) :=
  let adj :=
    foldl (λ adj uv, adj_append uv.2 uv.1 (adj_append uv.1 uv.2 adj)) ∅
      (elements edges) in
  (λ nbs, sorted (list_to_set nbs)) <$> adj.

(** [parse_input], lines 5-55, on the lines of the file: [Some (k,
    variables, adj)] is what it returns, [None] stands for printing
    'failure' and exiting with status 0. *)
Definition parse_input (lines : list line)
    : option (Z * list Z * gmap Z (list Z)) :=
  match read_lines lines None ∅ ∅ with
  | None => None
  | Some (None, _, _) => None
  | Some (Some k, edges, vertices) =>
      Some (k, sorted vertices, build_adj edges)
  end.

(** [{v: solution[v] for v in sorted(solution.keys())}], line 236, as the
    list of its items in their order; [v] ranges over the keys, so that
    [solution[v]] is there. *)
Definition ordered_items (solution : gmap Z Z) : list (Z * Z) :=
  omap (λ v, pair v <$> solution !! v) (sorted (dom solution)).

(** [main], lines 225-237, on the lines of the input file, run with room
    enough for the recursion: [Return None] stands for printing 'failure',
    [Return (Some items)] for printing 'SOLUTION: ' and the dict with these
    items. [main_within] is the run within a given depth. *)
Definition main (lines : list line) : outcome (option (list (Z * Z))) :=
  match parse_input lines with
  | None => Return None
  | Some (k, variables, adj) =>
      match variables with
      | [] => Return (Some [])
      | _ :: _ =>
          match solve_graph_coloring k variables adj with
          | Return None => Return None
          | Return (Some solution) => Return (Some (ordered_items solution))
          | Raise e => Raise e
          | OutOfFuel => OutOfFuel
          end
      end
  end.

(** [main], lines 225-237, run by an interpreter that has room for [depth]
    nested calls of [backtrack], as [solve_graph_coloring_within]: the
    [RecursionError] is not caught and ends the script. *)
Definition main_within (depth : nat) (lines : list line)
    : outcome (option (list (Z * Z))) :=
  match parse_input lines with
  | None => Return None
  | Some (k, variables, adj) =>
      match variables with
      | [] => Return (Some [])
      | _ :: _ =>
          match solve_graph_coloring_within depth k variables adj with
          | Return None => Return None
          | Return (Some solution) => Return (Some (ordered_items solution))
          | Raise e => Raise e
          | OutOfFuel => OutOfFuel
          end
      end
  end.

(** ** Examples from the repository's sample inputs *)

Definition triangle : gmap Z (list Z) :=
  list_to_map [(1, [2; 3]); (2, [1; 3]); (3, [1; 2])]%Z.

Definition small_graph : gmap Z (list Z) :=
  list_to_map [(1, [2; 3]); (2, [1; 3]); (3, [1; 2; 4]); (4, [3])]%Z.

Definition small_coloring : gmap Z Z :=
  list_to_map [(1, 1); (2, 2); (3, 3); (4, 1)]%Z.

(** The lines of the two files that [generate_tests] writes, lines 197-209. *)
Definition small_lines : list line :=
  [Ignored; Colors (Some 3); Pair 1 2; Pair 2 3; Pair 3 1; Pair 3 4]%Z.

Definition tight_lines : list line :=
  [Ignored; Colors (Some 2); Pair 1 2; Pair 2 3; Pair 3 1]%Z.

(** A vertex that is its own neighbour, with a one-way edge to vertex 2. *)
Definition loop_graph : gmap Z (list Z) := {[1%Z := [1; 2]%Z]}.


(** * The vocabulary of the specification *)

(** One trailed removal: a colour present in the domain of [X] leaves it, and
    the pair is appended to the trail. *)
Inductive removal : store → store → Prop :=
  | removal_step s X x domX :
      domains s !! X = Some domX →
      x ∈ domX →
      removal s (Store (<[X := domX ∖ {[x]}]> (domains s)) (trail s ++ [(X, x)])).

(** Any number of trailed removals. *)
Definition forward : relation store := rtc removal.

(** [d'] has the variables of [d], each with a subset of its colours. *)
Definition shrunk (d' d : gmap Z (gset Z)) : Prop :=
  ∀ v, match d !! v, d' !! v with
       | Some dv, Some dv' => dv' ⊆ dv
       | None, None => True
       | _, _ => False
       end.

(** The three ways a call of [revise] can go. *)
Inductive revise_case (X Y : Z) (s : store) : outcome bool * store → Prop :=
  | revise_unknown :
      domains s !! X = None ∨ domains s !! Y = None →
      revise_case X Y s (Raise KeyError, s)
  | revise_keep domX domY :
      domains s !! X = Some domX →
      domains s !! Y = Some domY →
      (∀ x, domY = {[x]} → x ∉ domX) →
      revise_case X Y s (Return false, s)
  | revise_prune domX x :
      domains s !! X = Some domX →
      domains s !! Y = Some {[x]} →
      x ∈ domX →
      revise_case X Y s
        (Return true, Store (<[X := domX ∖ {[x]}]> (domains s)) (trail s ++ [(X, x)])).

(** The vertices [V] are closed under the adjacency lists. *)
Definition closed (adj : gmap Z (list Z)) (V : gset Z) : Prop :=
  ∀ u v, u ∈ V → v ∈ adj_get adj u → v ∈ V.

(** Both ends of every arc are in [V]. *)
Definition arcs_known (V : gset Z) (q : list (Z * Z)) : Prop :=
  ∀ Xi Xj, (Xi, Xj) ∈ q → Xi ∈ V ∧ Xj ∈ V.

(** Every arc lies along an edge, in one direction or the other. *)
Definition arcs_edges (adj : gmap Z (list Z)) (q : list (Z * Z)) : Prop :=
  ∀ Xi Xj, (Xi, Xj) ∈ q → Xj ∈ adj_get adj Xi ∨ Xi ∈ adj_get adj Xj.

(** The colouring [m] picks, for each variable of the store, a colour of its
    domain. *)
Definition fits (m : gmap Z Z) (d : gmap Z (gset Z)) : Prop :=
  ∀ v dv, d !! v = Some dv → ∃ c, m !! v = Some c ∧ c ∈ dv.

(** No edge joins two vertices to which [m] gives the same colour. *)
Definition proper (adj : gmap Z (list Z)) (m : gmap Z Z) : Prop :=
  ∀ u v cu cv, v ∈ adj_get adj u → m !! u = Some cu → m !! v = Some cv → cu ≠ cv.

(** The neighbour [nb] is not assigned and its domain holds [val]. *)
Definition constrained (d : gmap Z (gset Z)) (a : gmap Z Z) (val nb : Z) : Prop :=
  a !! nb = None ∧ val ∈ default ∅ (d !! nb).

Global Instance constrained_dec d a val nb : Decision (constrained d a val nb).
Proof. unfold constrained. apply _. Defined.

(** The elimination count of [val]: how many of the neighbours [nbs] it
    constrains. *)
Definition elimination_count (d : gmap Z (gset Z)) (a : gmap Z Z)
    (nbs : list Z) (val : Z) : nat :=
  length (filter (constrained d a val) nbs).

(** The invariant of the search that makes its answers valid: an assigned
    variable has a single colour left, the one it was given; that colour is
    gone from the domains of its neighbours; and no domain is empty. *)
Record consistent (adj : gmap Z (list Z)) (s : store) (a : gmap Z Z) : Prop := {
  assigned_single u c : a !! u = Some c → domains s !! u = Some {[c]};
  assigned_pruned u c v dv :
    a !! u = Some c → v ∈ adj_get adj u → domains s !! v = Some dv → c ∉ dv;
  no_empty_domain v dv : domains s !! v = Some dv → dv ≠ ∅
}.

(** [m] is a proper colouring within the domains of the store that extends
    the assignment. *)
Definition solution (adj : gmap Z (list Z)) (m : gmap Z Z) (s : store)
    (a : gmap Z Z) : Prop :=
  proper adj m ∧ fits m (domains s) ∧ a ⊆ m.

(** What a call of [backtrack] on store [s] and assignment [a] does. *)
Definition search_post (adj : gmap Z (list Z)) (s : store) (a : gmap Z Z)
    (r : search_result) : Prop :=
  match r with
  | (Return true, s', a') =>
      forward s s' ∧ a ⊆ a' ∧ dom a' = dom (domains s') ∧
      (consistent adj s a → consistent adj s' a')
  | (Return false, s', a') => s' = s ∧ a' = a ∧ ∀ m, ¬ solution adj m s a
  | (Raise _, _, _) => ¬ closed adj (dom (domains s))
  | (OutOfFuel, _, _) => False
  end.

(** What the loop over the candidate values does. *)
Definition try_post (adj : gmap Z (list Z)) (var : Z) (values : list Z)
    (s : store) (a : gmap Z Z) (r : search_result) : Prop :=
  match r with
  | (Return true, s', a') =>
      forward s s' ∧ a ⊆ a' ∧ dom a' = dom (domains s') ∧
      (consistent adj s a → consistent adj s' a')
  | (Return false, s', a') =>
      s' = s ∧ a' = a ∧
      ∀ m, solution adj m s a → ∃ c, m !! var = Some c ∧ c ∉ values
  | (Raise _, _, _) => ¬ closed adj (dom (domains s))
  | (OutOfFuel, _, _) => False
  end.

(** A valid [k]-colouring of the graph: exactly the variables are coloured,
    with colours of [1..k], and no edge joins two vertices of one colour. *)
Definition valid_coloring (k : Z) (variables : list Z) (adj : gmap Z (list Z))
    (m : gmap Z Z) : Prop :=
  dom m = list_to_set variables ∧
  (∀ v c, m !! v = Some c → (1 ≤ c ≤ k)%Z) ∧
  (∀ u v cu cv, v ∈ adj_get adj u → m !! u = Some cu → m !! v = Some cv → cu ≠ cv).

(** The shape of a well-formed input: the adjacency maps variables to their
    neighbours, is symmetric and has no self-loop, and there is at least one
    colour. *)
Record graph_input (k : Z) (variables : list Z) (adj : gmap Z (list Z)) : Prop := {
  adj_variables u : is_Some (adj !! u) → u ∈ variables;
  adj_symmetric u v : v ∈ adj_get adj u → u ∈ adj_get adj v;
  adj_no_self_loop u : u ∉ adj_get adj u;
  colors_positive : (1 ≤ k)%Z
}.

(** Forward work on the store: calls of [revise], of the singleton forcing
    of [backtrack], and of [ac3], in any number and order. *)
Inductive trailed_ops (adj : gmap Z (list Z)) : store → store → Prop :=
  | ops_done s : trailed_ops adj s s
  | ops_revise X Y s r s1 s2 :
      revise X Y s = (r, s1) → trailed_ops adj s1 s2 → trailed_ops adj s s2
  | ops_force var value s r s1 s2 :
      force var value s = (r, s1) → trailed_ops adj s1 s2 → trailed_ops adj s s2
  | ops_ac3 q s r s1 s2 :
      ac3 adj q s = (r, s1) → trailed_ops adj s1 s2 → trailed_ops adj s s2.

(** Small stores for the examples: two or three variables with the colours
    [1..2], and two variables with the single colour [1]. *)
Definition two_vertices : store :=
  Store (initial_domains 2 [1; 2]%Z) [].

Definition three_vertices : store :=
  Store (initial_domains 2 [1; 2; 3]%Z) [].

Definition clash : store :=
  Store (initial_domains 1 [1; 2]%Z) [].

(** Three variables with the colours [1..3]. *)
Definition three_colors : store :=
  Store (initial_domains 3 [1; 2; 3]%Z) [].

(** Domains of different sizes: variable 1 has one colour, variable 2 has
    three, variables 3 and 4 have two. With variable 1 assigned, the
    unassigned variable of smallest domain and then of smallest identifier
    is 3. *)
Definition mrv_domains : gmap Z (gset Z) :=
  {[1 := {[2]}; 2 := {[1; 2; 3]}; 3 := {[1; 3]}; 4 := {[1; 3]}]}%Z.

(** Domains in which the colours of variable 1 constrain its neighbours 2
    and 3 differently: colour 1 is in both their domains, colour 2 in one,
    colour 3 in none. *)
Definition lcv_domains : gmap Z (gset Z) :=
  {[1 := {[1; 2; 3]}; 2 := {[1; 2]}; 3 := {[1]}]}%Z.

(** A store in which variable 1 has a single colour left, which arc
    consistency takes from its neighbours. *)
Definition one_colored : store :=
  Store {[1 := {[1]}; 2 := {[1; 2; 3]}; 3 := {[1; 2; 3]}]}%Z [].

(** The arc [(Xi, Xj)] is consistent in [d]: no colour of [Xi] is the only
    colour left to [Xj], so that [revise] would remove nothing. *)
Definition arc_consistent (d : gmap Z (gset Z)) (Xi Xj : Z) : Prop :=
  ∀ dXi x, d !! Xi = Some dXi → d !! Xj = Some {[x]} → x ∉ dXi.

(** * Proofs *)

(** ** The guard of [revise] *)

Lemma sole_value_singleton (domY : gset Z) (x : Z) :
  sole_value domY x ↔ domY = {[x]}.
Proof.
  unfold sole_value. split.
  - intros [Hsz Hhd]. apply size_1_elem_of in Hsz as [y Hy].
    apply leibniz_equiv in Hy. subst domY.
    rewrite elements_singleton in Hhd. by simplify_eq/=.
  - intros ->. by rewrite size_singleton, elements_singleton.
Qed.

Lemma filter_sole_value_singleton (x : Z) (domX : gset Z) :
  filter (sole_value {[x]}) (elements domX) = if decide (x ∈ domX) then [x] else [].
Proof.
  assert (Hnd := NoDup_elements domX).
  assert (Hin : ∀ y, y ∈ elements domX ↔ y ∈ domX) by (intros; apply elem_of_elements).
  revert Hnd Hin. generalize (elements domX) as l. intros l Hnd Hin.
  assert (Hfil : ∀ y, y ∈ filter (sole_value {[x]}) l ↔ y = x ∧ x ∈ domX).
  { intros y. rewrite list_elem_of_filter, sole_value_singleton, Hin.
    split; [intros [Heq ?]|intros [-> ?]]; [|done].
    apply (inj singleton) in Heq. by subst. }
  assert (Hnd' : NoDup (filter (sole_value {[x]}) l)) by by apply NoDup_filter.
  revert Hfil Hnd'. generalize (filter (sole_value {[x]}) l) as r. intros r Hfil Hnd'.
  case_decide as Hx.
  - apply Permutation_singleton_r, NoDup_Permutation; [done|apply NoDup_singleton|].
    intros y. rewrite Hfil, list_elem_of_singleton. naive_solver.
  - destruct r as [|y r]; [done|]. exfalso. apply Hx, (Hfil y). left.
Qed.

Lemma filter_sole_value_other (domY domX : gset Z) :
  (∀ x, domY ≠ {[x]}) → filter (sole_value domY) (elements domX) = [].
Proof.
  intros Hne. induction (elements domX) as [|y l IH]; [done|].
  rewrite filter_cons. case_decide as Hy; [|done].
  apply sole_value_singleton in Hy. by destruct (Hne y).
Qed.

(** ** Trailed removals *)

Lemma shrunk_refl d : shrunk d d.
Proof. intros v. by destruct (d !! v). Qed.

Lemma shrunk_trans d1 d2 d3 : shrunk d3 d2 → shrunk d2 d1 → shrunk d3 d1.
Proof.
  intros H32 H21 v. specialize (H32 v). specialize (H21 v).
  destruct (d1 !! v), (d2 !! v), (d3 !! v); try done. set_solver.
Qed.

Lemma shrunk_lookup d' d v dv' :
  shrunk d' d → d' !! v = Some dv' → ∃ dv, d !! v = Some dv ∧ dv' ⊆ dv.
Proof.
  intros H Hv. specialize (H v). rewrite Hv in H.
  destruct (d !! v) as [dv|]; [eauto|done].
Qed.

Lemma shrunk_lookup_inv d' d v dv :
  shrunk d' d → d !! v = Some dv → ∃ dv', d' !! v = Some dv' ∧ dv' ⊆ dv.
Proof.
  intros H Hv. specialize (H v). rewrite Hv in H.
  destruct (d' !! v) as [dv'|]; [eauto|done].
Qed.

Lemma shrunk_dom d' d : shrunk d' d → dom d' = dom d.
Proof.
  intros H. apply set_eq. intros v. rewrite !elem_of_dom. specialize (H v).
  destruct (d !! v), (d' !! v); try done; split; intros [? ?]; done.
Qed.

Lemma shrunk_size d' d : shrunk d' d → size d' = size d.
Proof. intros H. by rewrite <-!size_dom, (shrunk_dom d' d). Qed.

Lemma removal_shrunk s s' : removal s s' → shrunk (domains s') (domains s).
Proof.
  intros [s0 X x domX HX Hx] v. simpl.
  destruct (decide (X = v)) as [->|Hne].
  - rewrite HX, lookup_insert_eq. set_solver.
  - rewrite lookup_insert_ne by done. by destruct (domains s0 !! v).
Qed.

Lemma forward_shrunk s s' : forward s s' → shrunk (domains s') (domains s).
Proof.
  induction 1 as [|s1 s2 s3 Hstep _ IH]; [apply shrunk_refl|].
  eapply shrunk_trans; [done|by apply removal_shrunk].
Qed.

Lemma forward_trail s s' : forward s s' → ∃ ext, trail s' = trail s ++ ext.
Proof.
  induction 1 as [s|s1 s2 s3 Hstep _ [ext IH]]; [exists []; by rewrite app_nil_r|].
  destruct Hstep as [s0 X x domX _ _]. simpl in IH.
  exists ((X, x) :: ext). by rewrite IH, <-app_assoc.
Qed.

Lemma forward_trail_length s s' : forward s s' → length (trail s) ≤ length (trail s').
Proof. intros [ext ->]%forward_trail. rewrite length_app. lia. Qed.

Lemma forward_trans s1 s2 s3 : forward s1 s2 → forward s2 s3 → forward s1 s3.
Proof. apply rtc_trans. Qed.

(** Every entry above the mark names a colour that was removed from a domain
    that held it, so the rollback loop puts each one back. *)
Lemma restore_to_forward s s' :
  forward s s' → restore_to (length (trail s)) s' = (Return (), s).
Proof.
  revert s'. apply rtc_ind_r; [|intros s1 s2 Hfw Hstep IH].
  - unfold restore_to. rewrite Nat.sub_diag. done.
  - apply forward_trail_length in Hfw.
    destruct Hstep as [s0 X x domX HX Hx]. unfold restore_to in *. simpl.
    rewrite length_app. simpl.
    replace (length (trail s0) + 1 - length (trail s))
      with (S (length (trail s0) - length (trail s))) by lia.
    simpl. rewrite reverse_snoc, lookup_insert_eq, reverse_involutive.
    rewrite decide_False by set_solver.
    rewrite insert_insert_eq.
    replace (domX ∖ {[x]} ∪ {[x]}) with domX.
    + rewrite insert_id by done. by destruct s0.
    + apply set_eq. intros y. rewrite elem_of_union, elem_of_difference, elem_of_singleton.
      destruct (decide (y = x)); naive_solver.
Qed.

Lemma remove_each_forward X vals s r s' :
  remove_each X vals s = (r, s') → forward s s'.
Proof.
  revert s. induction vals as [|val vals IH]; intros s Heq; simpl in Heq.
  - simplify_eq. apply rtc_refl.
  - destruct (domains s !! X) as [domX|] eqn:HX; [|simplify_eq; apply rtc_refl].
    case_decide as Hval; [|simplify_eq; apply rtc_refl].
    eapply rtc_l; [by apply (removal_step s X val domX)|]. by apply IH.
Qed.

(** What [remove_each] leaves when the values are distinct colours of the
    domain. *)
Lemma remove_each_spec X vals s domX :
  domains s !! X = Some domX →
  NoDup vals →
  (∀ val, val ∈ vals → val ∈ domX) →
  remove_each X vals s =
    (Return (), Store (<[X := domX ∖ list_to_set vals]> (domains s))
                      (trail s ++ ((λ val, (X, val)) <$> vals))).
Proof.
  revert s domX. induction vals as [|val vals IH]; intros s domX HX Hnd Hin; simpl.
  - rewrite difference_empty_L, insert_id, app_nil_r by done. by destruct s.
  - rewrite HX. apply NoDup_cons in Hnd as [Hval Hnd].
    rewrite decide_True by (apply Hin; left).
    erewrite IH; [|apply lookup_insert_eq|done|].
    + simpl. rewrite insert_insert_eq, <-app_assoc. do 2 f_equal.
      f_equal. set_solver.
    + intros v Hv. apply elem_of_difference. split; [apply Hin; by right|].
      rewrite elem_of_singleton. intros ->. done.
Qed.

Lemma force_forward var value s r s' : force var value s = (r, s') → forward s s'.
Proof.
  unfold force. destruct (domains s !! var); [apply remove_each_forward|].
  intros. simplify_eq. apply rtc_refl.
Qed.

(** Forcing a colour of the domain leaves exactly that colour. *)
Lemma force_spec var value s dom :
  domains s !! var = Some dom →
  value ∈ dom →
  ∃ s', force var value s = (Return (), s') ∧
        domains s' = <[var := {[value]}]> (domains s).
Proof.
  intros Hvar Hval. unfold force. rewrite Hvar.
  erewrite remove_each_spec; [eexists; split; [done|]|done|..].
  - simpl. f_equal. apply set_eq. intros y.
    rewrite elem_of_difference, elem_of_list_to_set, list_elem_of_filter,
      elem_of_elements, elem_of_singleton.
    destruct (decide (y = value)); naive_solver.
  - apply NoDup_filter, NoDup_elements.
  - intros v [_ Hv]%list_elem_of_filter. by apply elem_of_elements.
Qed.

(** ** [revise] *)

Lemma revise_cases X Y s : revise_case X Y s (revise X Y s).
Proof.
  unfold revise.
  destruct (domains s !! X) as [domX|] eqn:HX; [|apply revise_unknown; by left].
  destruct (domains s !! Y) as [domY|] eqn:HY; [|apply revise_unknown; by right].
  destruct (decide (size domY = 1)) as [Hsz|Hno].
  - apply size_1_elem_of in Hsz as [x ->%leibniz_equiv].
    rewrite filter_sole_value_singleton. case_decide as Hx.
    + simpl. rewrite HX, decide_True by done. by apply revise_prune.
    + eapply revise_keep; [done..|]. intros y Hy. apply (inj singleton) in Hy. by subst.
  - assert (∀ x, domY ≠ {[x]}) as Hne
      by (intros x ->; by rewrite size_singleton in Hno).
    rewrite filter_sole_value_other by done.
    eapply revise_keep; [done..|]. intros x ->. by destruct (Hne x).
Qed.

Lemma revise_forward X Y s r s' : revise X Y s = (r, s') → forward s s'.
Proof.
  intros Heq. destruct (revise_cases X Y s); simplify_eq; try apply rtc_refl.
  apply rtc_once. by eapply removal_step.
Qed.

Lemma revise_not_out_of_fuel X Y s s' : revise X Y s ≠ (OutOfFuel, s').
Proof. by destruct (revise_cases X Y s). Qed.

(** ** Termination of [ac3] *)

Lemma total_size_insert d X domX domX' :
  d !! X = Some domX →
  total_size (<[X := domX']> d) + size domX = total_size d + size domX'.
Proof.
  intros HX. unfold total_size.
  rewrite (map_fold_delete_L _ _ X domX d) by (done || (intros; lia)).
  rewrite <-(insert_delete_eq d X domX').
  rewrite map_fold_insert_L by (apply lookup_delete_eq || (intros; lia)). lia.
Qed.

Lemma max_degree_lookup adj v nbs : adj !! v = Some nbs → length nbs ≤ max_degree adj.
Proof.
  intros Hv. unfold max_degree.
  rewrite (map_fold_delete_L _ _ v nbs adj) by (done || (intros; lia)). lia.
Qed.

Lemma length_new_arcs adj Xi Xj : length (new_arcs adj Xi Xj) ≤ max_degree adj.
Proof.
  unfold new_arcs, adj_get. rewrite length_fmap.
  etrans; [apply length_filter|].
  destruct (adj !! Xi) as [nbs|] eqn:Hnbs; simpl; [by eapply max_degree_lookup|lia].
Qed.

Lemma size_remove (dom : gset Z) (x : Z) :
  x ∈ dom → size dom = S (size (dom ∖ {[x]})).
Proof.
  intros Hx. rewrite size_difference, size_singleton by set_solver.
  assert (size dom ≠ 0); [|lia].
  intros Hsz%size_empty_iff. set_solver.
Qed.

Lemma ac3_loop_enough adj n q s :
  ac3_fuel adj q s ≤ n → (ac3_loop n adj q s).1 ≠ OutOfFuel.
Proof.
  revert q s. induction n as [|n IH]; intros [|[Xi Xj] q] s Hfuel; try done.
  - unfold ac3_fuel in Hfuel. simpl in Hfuel. lia.
  - simpl. unfold ac3_fuel in *. simpl in Hfuel.
    destruct (revise_cases Xi Xj s) as [|domX domY HX HY Hkeep|domX x HX HY Hx]; [done|..].
    + apply IH. lia.
    + simpl. rewrite lookup_insert_eq. case_decide; [done|].
      apply IH. simpl. rewrite length_app.
      pose proof (length_new_arcs adj Xi Xj).
      pose proof (total_size_insert (domains s) Xi domX (domX ∖ {[x]}) HX) as Htot.
      pose proof (size_remove domX x Hx). nia.
Qed.

(** More fuel does not change a result that was reached. *)
Lemma ac3_loop_more adj n n' q s r s' :
  ac3_loop n adj q s = (r, s') → r ≠ OutOfFuel → n ≤ n' →
  ac3_loop n' adj q s = (r, s').
Proof.
  revert n' q s. induction n as [|n IH]; intros n' [|[Xi Xj] q] s Heq Hr Hle;
    try (by destruct n'); simpl in Heq; [by simplify_eq|].
  destruct n' as [|n']; [lia|]. simpl.
  destruct (revise Xi Xj s) as [[[]| |] s1]; try done.
  - destruct (domains s1 !! Xi); [|done]. case_decide; [done|]. apply IH; [done..|lia].
  - apply IH; [done..|lia].
Qed.

Lemma ac3_terminates adj q s : (ac3 adj q s).1 ≠ OutOfFuel.
Proof. by apply ac3_loop_enough. Qed.

Lemma ac3_loop_ac3 adj n q s :
  ac3_fuel adj q s ≤ n → ac3_loop n adj q s = ac3 adj q s.
Proof.
  intros Hle. destruct (ac3 adj q s) as [r s'] eqn:Hac3.
  eapply ac3_loop_more; [done| |done].
  pose proof (ac3_terminates adj q s) as Hr. by rewrite Hac3 in Hr.
Qed.

(** ** A proof rule for the loop of [ac3] *)

(** [I] is an invariant of the loop head, [Q] what is wanted of the result:
    one premise for each way an iteration can go. *)
Lemma ac3_loop_rule adj (I : list (Z * Z) → store → Prop)
    (Q : outcome bool * store → Prop) :
  (∀ s, I [] s → Q (Return true, s)) →
  (∀ Xi Xj q s, I ((Xi, Xj) :: q) s →
     domains s !! Xi = None ∨ domains s !! Xj = None →
     Q (Raise KeyError, s)) →
  (∀ Xi Xj q s domX domY, I ((Xi, Xj) :: q) s →
     domains s !! Xi = Some domX → domains s !! Xj = Some domY →
     (∀ x, domY = {[x]} → x ∉ domX) →
     I q s) →
  (∀ Xi Xj q s domX x, I ((Xi, Xj) :: q) s →
     domains s !! Xi = Some domX → domains s !! Xj = Some {[x]} → x ∈ domX →
     let s' := Store (<[Xi := domX ∖ {[x]}]> (domains s)) (trail s ++ [(Xi, x)]) in
     if decide (size (domX ∖ {[x]}) = 0) then Q (Return false, s')
     else I (q ++ new_arcs adj Xi Xj) s') →
  ∀ n q s, I q s →
    (ac3_loop n adj q s).1 = OutOfFuel ∨ Q (ac3_loop n adj q s).
Proof.
  intros Hdone Hraise Hkeep Hprune.
  induction n as [|n IH]; intros [|[Xi Xj] q] s HI; simpl; auto.
  destruct (revise_cases Xi Xj s) as [Hno|domX domY HX HY Hk|domX x HX HY Hx].
  - right. by eapply Hraise.
  - apply IH. by eapply Hkeep.
  - simpl. rewrite lookup_insert_eq.
    specialize (Hprune Xi Xj q s domX x HI HX HY Hx). simpl in Hprune.
    case_decide; [by right|by apply IH].
Qed.

Lemma ac3_rule adj (I : list (Z * Z) → store → Prop)
    (Q : outcome bool * store → Prop) :
  (∀ s, I [] s → Q (Return true, s)) →
  (∀ Xi Xj q s, I ((Xi, Xj) :: q) s →
     domains s !! Xi = None ∨ domains s !! Xj = None →
     Q (Raise KeyError, s)) →
  (∀ Xi Xj q s domX domY, I ((Xi, Xj) :: q) s →
     domains s !! Xi = Some domX → domains s !! Xj = Some domY →
     (∀ x, domY = {[x]} → x ∉ domX) →
     I q s) →
  (∀ Xi Xj q s domX x, I ((Xi, Xj) :: q) s →
     domains s !! Xi = Some domX → domains s !! Xj = Some {[x]} → x ∈ domX →
     let s' := Store (<[Xi := domX ∖ {[x]}]> (domains s)) (trail s ++ [(Xi, x)]) in
     if decide (size (domX ∖ {[x]}) = 0) then Q (Return false, s')
     else I (q ++ new_arcs adj Xi Xj) s') →
  ∀ q s, I q s → Q (ac3 adj q s).
Proof.
  intros Hdone Hraise Hkeep Hprune q s HI.
  destruct (ac3_loop_rule adj I Q Hdone Hraise Hkeep Hprune
              (ac3_fuel adj q s) q s HI) as [Hout|HQ]; [|done].
  by destruct (ac3_terminates adj q s).
Qed.

Lemma ac3_loop_forward adj n q s r s' :
  ac3_loop n adj q s = (r, s') → forward s s'.
Proof.
  revert q s. induction n as [|n IH]; intros [|[Xi Xj] q] s Heq; simpl in Heq;
    try (simplify_eq; apply rtc_refl).
  destruct (revise Xi Xj s) as [ro s1] eqn:Hrev.
  apply revise_forward in Hrev.
  destruct ro as [[]| |]; simplify_eq; try done.
  - destruct (domains s1 !! Xi); simplify_eq; [|done].
    case_decide; simplify_eq; [done|].
    eapply forward_trans; [done|by eapply IH].
  - eapply forward_trans; [done|by eapply IH].
Qed.

Lemma ac3_forward adj q s r s' : ac3 adj q s = (r, s') → forward s s'.
Proof. apply ac3_loop_forward. Qed.

(** [ac3] answers [False] only with an empty domain in the store. *)
Lemma ac3_false_empty adj q s s' :
  ac3 adj q s = (Return false, s') → ∃ Xi, domains s' !! Xi = Some ∅.
Proof.
  intros Heq.
  refine (ac3_rule adj (λ _ _, True)
    (λ r, ∀ s', r = (Return false, s') → ∃ Xi, domains s' !! Xi = Some ∅)
    _ _ _ _ q s I s' Heq); try done.
  intros Xi Xj q0 s0 domX x _ HX HY Hx. simpl. case_decide as Hsz; [|done].
  intros s1 [= <-]. exists Xi. simpl. rewrite lookup_insert_eq.
  f_equal. by apply size_empty_iff, leibniz_equiv in Hsz.
Qed.

(** ** What [ac3] preserves and establishes *)

Lemma elem_of_new_arcs adj Xi Xj Xk X :
  (Xk, X) ∈ new_arcs adj Xi Xj ↔ X = Xi ∧ Xk ≠ Xj ∧ Xk ∈ adj_get adj Xi.
Proof.
  unfold new_arcs. rewrite list_elem_of_fmap. split.
  - intros (y & [= -> ->] & Hy%list_elem_of_filter). naive_solver.
  - intros (-> & ? & ?). exists Xk. by rewrite list_elem_of_filter.
Qed.

Lemma arcs_known_cons V Xi Xj q :
  arcs_known V ((Xi, Xj) :: q) → Xi ∈ V ∧ Xj ∈ V ∧ arcs_known V q.
Proof.
  intros H. split_and!; [apply (H Xi Xj); left..|].
  intros ?? ?. apply H. by right.
Qed.

(** With known arcs and a closed adjacency no lookup fails. *)
Lemma ac3_safe adj q s :
  closed adj (dom (domains s)) → arcs_known (dom (domains s)) q →
  ∃ b s', ac3 adj q s = (Return b, s').
Proof.
  intros Hclosed Hq. set (V := dom (domains s)) in *.
  refine (ac3_rule adj (λ q s1, dom (domains s1) = V ∧ arcs_known V q)
    (λ r, ∃ b s', r = (Return b, s')) _ _ _ _ q s _); [eauto| | | |done].
  - intros Xi Xj q0 s0 [Hdom (HXi & HXj & _)%arcs_known_cons] Hno.
    rewrite <-Hdom, !elem_of_dom in HXi, HXj.
    destruct Hno as [Hno|Hno]; rewrite Hno in *; by destruct HXi, HXj.
  - intros Xi Xj q0 s0 domX domY [Hdom (_ & _ & Hq0)%arcs_known_cons] _ _ _. done.
  - intros Xi Xj q0 s0 domX x [Hdom (HXi & HXj & Hq0)%arcs_known_cons] HX HY Hx.
    simpl. case_decide; [eauto|]. simpl. split.
    + rewrite dom_insert_L, <-Hdom. apply elem_of_dom_2 in HX. set_solver.
    + intros Xk X [Hin|Hin]%elem_of_app; [by apply Hq0|].
      apply elem_of_new_arcs in Hin as (-> & _ & Hin). split; [|done].
      by apply (Hclosed Xi).
Qed.

(** A proper colouring that fits the store before [ac3] fits it afterwards,
    and [ac3] does not answer [False]. *)
Lemma ac3_complete adj m q s r s' :
  proper adj m → arcs_edges adj q → fits m (domains s) →
  ac3 adj q s = (r, s') →
  r ≠ Return false ∧ fits m (domains s').
Proof.
  intros Hproper Hq Hfits Heq.
  change (((r, s').1 ≠ Return false) ∧ fits m (domains (r, s').2)).
  rewrite <-Heq.
  refine (ac3_rule adj (λ q s1, arcs_edges adj q ∧ fits m (domains s1))
    (λ r, r.1 ≠ Return false ∧ fits m (domains r.2)) _ _ _ _ q s _);
    [| | | |done].
  - by intros s0 [_ ?].
  - by intros Xi Xj q0 s0 [_ ?] _.
  - intros Xi Xj q0 s0 domX domY [Hq0 ?] _ _ _. split; [|done].
    intros ?? ?. apply Hq0. by right.
  - intros Xi Xj q0 s0 domX x [Hq0 Hf] HX HY Hx. simpl.
    destruct (Hf Xi domX HX) as (ci & Hci & Hcidom).
    destruct (Hf Xj {[x]} HY) as (cj & Hcj & ->%elem_of_singleton).
    assert (ci ≠ x) as Hne.
    { destruct (Hq0 Xi Xj) as [Hedge|Hedge]; [left|..].
      - by apply (Hproper Xi Xj ci x Hedge).
      - apply not_eq_sym. by apply (Hproper Xj Xi x ci Hedge). }
    assert (ci ∈ domX ∖ {[x]}) as Hci' by set_solver.
    rewrite decide_False; last first.
    { intros Hsz%size_empty_iff. set_solver. }
    split.
    + intros Xk X [Hin|Hin]%elem_of_app; [apply Hq0; by right|].
      apply elem_of_new_arcs in Hin as (-> & _ & Hin). by right.
    + intros v dv. simpl. destruct (decide (Xi = v)) as [<-|Hv].
      * rewrite lookup_insert_eq. intros [= <-]. eauto.
      * rewrite lookup_insert_ne by done. apply Hf.
Qed.

(** When the domain of [var] is the single colour [c] and the queue holds
    the arc [(nb, var)] for every neighbour, a successful [ac3] leaves [c] in
    no neighbour's domain. *)
Lemma ac3_prunes_neighbours adj var c q s s' :
  domains s !! var = Some {[c]} →
  (∀ nb, nb ∈ adj_get adj var → (nb, var) ∈ q) →
  ac3 adj q s = (Return true, s') →
  ∀ nb dnb, nb ∈ adj_get adj var → domains s' !! nb = Some dnb → c ∉ dnb.
Proof.
  intros Hvar Hq Heq.
  refine (ac3_rule adj
    (λ q s1, domains s1 !! var = Some {[c]} ∧
       ∀ nb, nb ∈ adj_get adj var →
         (nb, var) ∈ q ∨ ∀ dnb, domains s1 !! nb = Some dnb → c ∉ dnb)
    (λ r, ∀ s', r = (Return true, s') →
       ∀ nb dnb, nb ∈ adj_get adj var → domains s' !! nb = Some dnb → c ∉ dnb)
    _ _ _ _ q s _ s' Heq); [| | | |by auto].
  - intros s0 [_ Hnb] s1 [= <-] nb dnb Hin Hdnb.
    destruct (Hnb nb Hin) as [[]%elem_of_nil|Hc]. by apply Hc.
  - done.
  - intros Xi Xj q0 s0 domX domY [Hv Hnb] HX HY Hkeep. split; [done|].
    intros nb Hin. destruct (Hnb nb Hin) as [[[= -> ->]|Hq0]%elem_of_cons|Hc]; auto.
    right. intros dnb Hdnb. simplify_eq. by apply Hkeep.
  - intros Xi Xj q0 s0 domX x [Hv Hnb] HX HY Hx. simpl.
    case_decide as Hsz; [done|]. split.
    + destruct (decide (Xi = var)) as [->|Hne]; [|by rewrite lookup_insert_ne].
      simplify_eq. apply elem_of_singleton in Hx as ->.
      destruct Hsz. apply size_empty_iff. set_solver.
    + intros nb Hin.
      destruct (Hnb nb Hin) as [[[= -> ->]|Hq0]%elem_of_cons|Hc].
      * right. intros dnb. rewrite lookup_insert_eq. intros [= <-].
        simplify_eq. set_solver.
      * left. apply elem_of_app. by left.
      * right. intros dnb. destruct (decide (Xi = nb)) as [->|Hne].
        -- rewrite lookup_insert_eq. intros [= <-].
           specialize (Hc domX HX). set_solver.
        -- rewrite lookup_insert_ne by done. apply Hc.
Qed.

(** ** The order on tuples *)

Global Instance tuple_le_total : Total tuple_le.
Proof. intros [n1 v1] [n2 v2]. unfold tuple_le. simpl. lia. Qed.

Global Instance tuple_le_trans : Transitive tuple_le.
Proof. intros [n1 v1] [n2 v2] [n3 v3]. unfold tuple_le. simpl. lia. Qed.

Global Instance tuple_le_antisymm : AntiSymm (=) tuple_le.
Proof.
  intros [n1 v1] [n2 v2]. unfold tuple_le. simpl. intros H1 H2.
  f_equal; lia.
Qed.

Lemma Sorted_fmap_inv {A B} (f : A → B) (R : relation B) (l : list A) :
  Sorted R (f <$> l) → Sorted (λ x y, R (f x) (f y)) l.
Proof.
  induction l as [|x l IH]; [constructor|].
  rewrite fmap_cons. intros [Hs Hhd]%Sorted_inv. constructor; [by apply IH|].
  destruct l; [constructor|]. apply HdRel_inv in Hhd. by constructor.
Qed.

(** ** [select_unassigned_variable] *)

Lemma elem_of_candidates d a n v :
  (n, v) ∈ candidates d a ↔ ∃ dv, d !! v = Some dv ∧ a !! v = None ∧ n = size dv.
Proof.
  unfold candidates. rewrite list_elem_of_fmap. split.
  - intros ([v' dv] & [= -> ->] & [Ha Hd%elem_of_map_to_list]%list_elem_of_filter).
    eauto.
  - intros (dv & Hd & Ha & ->). exists (v, dv). split; [done|].
    apply list_elem_of_filter. split; [done|]. by apply elem_of_map_to_list.
Qed.

Lemma select_unassigned_variable_None d a :
  select_unassigned_variable d a = None ↔ ∀ v, is_Some (d !! v) → is_Some (a !! v).
Proof.
  unfold select_unassigned_variable.
  pose proof (merge_sort_Permutation tuple_le (candidates d a)) as Hperm.
  destruct (merge_sort tuple_le (candidates d a)) as [|[n var] l]; split; try done.
  - intros _ v [dv Hdv]. apply Permutation_nil_l in Hperm.
    destruct (a !! v) eqn:Ha; [done|].
    assert ((size dv, v) ∈ candidates d a) as Hin by (apply elem_of_candidates; eauto).
    rewrite <-Hperm in Hin. by apply elem_of_nil in Hin.
  - intros Hall. assert ((n, var) ∈ candidates d a) as Hin by (rewrite <-Hperm; left).
    apply elem_of_candidates in Hin as (dv & Hd & Ha & _).
    destruct (Hall var) as [? ?]; [done|congruence].
Qed.

Lemma select_unassigned_variable_Some d a var :
  select_unassigned_variable d a = Some var →
  ∃ dvar, d !! var = Some dvar ∧ a !! var = None ∧
    ∀ w dw, d !! w = Some dw → a !! w = None → tuple_le (size dvar, var) (size dw, w).
Proof.
  unfold select_unassigned_variable.
  pose proof (merge_sort_Permutation tuple_le (candidates d a)) as Hperm.
  pose proof (StronglySorted_merge_sort tuple_le (candidates d a)) as Hsorted.
  destruct (merge_sort tuple_le (candidates d a)) as [|[n v] l]; [done|].
  intros [= <-]. simpl.
  assert ((n, v) ∈ candidates d a) as Hin by (rewrite <-Hperm; left).
  apply elem_of_candidates in Hin as (dv & Hd & Ha & ->).
  exists dv. split_and!; [done..|]. intros w dw Hw Haw.
  assert ((size dw, w) ∈ candidates d a) as Hin by (apply elem_of_candidates; eauto).
  rewrite <-Hperm in Hin. apply StronglySorted_inv in Hsorted as [_ Hall].
  apply elem_of_cons in Hin as [[= -> ->]|Hin]; [right; simpl; lia|].
  by eapply Forall_forall in Hall.
Qed.

(** ** [order_domain_values] *)

(** With an adjacency list free of duplicates that is the number of distinct
    neighbours. *)
Lemma elimination_count_NoDup d a nbs val :
  NoDup nbs →
  elimination_count d a nbs val
  = size (filter (constrained d a val) (list_to_set nbs : gset Z)).
Proof.
  intros Hnd. unfold elimination_count.
  rewrite <-(size_list_to_set (C:=gset Z)) by by apply NoDup_filter.
  f_equal. apply set_eq. intros nb.
  rewrite elem_of_filter, !elem_of_list_to_set, list_elem_of_filter. done.
Qed.

Lemma eliminated_not_out_of_fuel d a val nbs acc :
  eliminated d a val nbs acc ≠ OutOfFuel.
Proof.
  revert acc. induction nbs as [|nb nbs IH]; intros acc; simpl; [done|].
  destruct (a !! nb); [done|]. by destruct (d !! nb).
Qed.

Lemma eliminated_spec d a val nbs acc :
  (∀ nb, nb ∈ nbs → a !! nb = None → is_Some (d !! nb)) →
  eliminated d a val nbs acc = Return (acc + elimination_count d a nbs val).
Proof.
  unfold elimination_count.
  revert acc. induction nbs as [|nb nbs IH]; intros acc Hknown; simpl.
  - f_equal. lia.
  - assert (∀ nb', nb' ∈ nbs → a !! nb' = None → is_Some (d !! nb')) as Hknown'
      by (intros ???; apply Hknown; [by right|done]).
    rewrite filter_cons.
    destruct (decide (constrained d a val nb)) as [[Ha Hin]|Hnc].
    + rewrite Ha. destruct (Hknown nb) as [dnb Hd]; [left|done|].
      rewrite Hd in Hin |- *. simpl in Hin.
      rewrite decide_True, IH by done. simpl. f_equal. lia.
    + destruct (a !! nb) eqn:Ha; [by apply IH|].
      destruct (Hknown nb) as [dnb Hd]; [left|done|]. rewrite Hd.
      rewrite decide_False, IH; [done..|].
      intros Hin. apply Hnc. split; [done|]. by rewrite Hd.
Qed.

Lemma count_values_not_out_of_fuel d a nbs vals :
  count_values d a nbs vals ≠ OutOfFuel.
Proof.
  induction vals as [|val vals IH]; simpl; [done|].
  pose proof (eliminated_not_out_of_fuel d a val nbs 0).
  destruct (eliminated d a val nbs 0); [|done..].
  by destruct (count_values d a nbs vals).
Qed.

Lemma count_values_snd d a nbs vals counts :
  count_values d a nbs vals = Return counts → counts.*2 = vals.
Proof.
  revert counts. induction vals as [|val vals IH]; intros counts; simpl.
  - by intros [= <-].
  - destruct (eliminated d a val nbs 0); [|done..].
    destruct (count_values d a nbs vals); [|done..].
    intros [= <-]. simpl. f_equal. by apply IH.
Qed.

Lemma count_values_spec d a nbs vals :
  (∀ nb, nb ∈ nbs → a !! nb = None → is_Some (d !! nb)) →
  count_values d a nbs vals
  = Return ((λ val, (elimination_count d a nbs val, val)) <$> vals).
Proof.
  intros Hknown. induction vals as [|val vals IH]; simpl; [done|].
  by rewrite eliminated_spec, IH.
Qed.

Lemma sorted_Permutation dom : sorted dom ≡ₚ elements dom.
Proof. apply merge_sort_Permutation. Qed.

Lemma order_domain_values_not_out_of_fuel var d adj a :
  order_domain_values var d adj a ≠ OutOfFuel.
Proof.
  unfold order_domain_values. destruct (d !! var); [|done].
  pose proof (count_values_not_out_of_fuel d a (adj_get adj var) (sorted g)).
  by destruct (count_values d a (adj_get adj var) (sorted g)).
Qed.

Lemma order_domain_values_Return var d adj a values :
  order_domain_values var d adj a = Return values →
  ∃ dom, d !! var = Some dom ∧ values ≡ₚ elements dom.
Proof.
  unfold order_domain_values. destruct (d !! var) as [dom|]; [|done].
  destruct (count_values d a (adj_get adj var) (sorted dom)) as [counts| |] eqn:Hc;
    [|done..].
  intros [= <-]. exists dom. split; [done|].
  rewrite merge_sort_Permutation, (count_values_snd _ _ _ _ _ Hc).
  apply sorted_Permutation.
Qed.

Lemma order_domain_values_known var d adj a dom :
  d !! var = Some dom →
  (∀ nb, nb ∈ adj_get adj var → a !! nb = None → is_Some (d !! nb)) →
  order_domain_values var d adj a
  = Return ((merge_sort tuple_le
      ((λ val, (elimination_count d a (adj_get adj var) val, val)) <$> sorted dom)).*2).
Proof.
  intros Hvar Hknown. unfold order_domain_values.
  by rewrite Hvar, count_values_spec.
Qed.

(** ** The search *)

Lemma empty_found_false d :
  empty_found d = false ↔ ∀ v dv, d !! v = Some dv → dv ≠ ∅.
Proof.
  unfold empty_found. rewrite <-not_true_iff_false, existsb_exists. split.
  - intros Hno v dv Hv ->. apply Hno. exists (v, ∅). split.
    + by apply list_elem_of_In, elem_of_map_to_list.
    + by apply bool_decide_eq_true.
  - intros Hall ([v dv] & Hin%list_elem_of_In%elem_of_map_to_list & Hsz).
    apply bool_decide_eq_true in Hsz. simpl in Hsz.
    apply size_empty_iff, leibniz_equiv in Hsz. by eapply Hall.
Qed.

Lemma empty_found_true d :
  empty_found d = true ↔ ∃ v, d !! v = Some ∅.
Proof.
  unfold empty_found. rewrite existsb_exists. split.
  - intros ([v dv] & Hin%list_elem_of_In%elem_of_map_to_list & Hsz).
    apply bool_decide_eq_true in Hsz. simpl in Hsz.
    apply size_empty_iff, leibniz_equiv in Hsz. subst. eauto.
  - intros [v Hv]. exists (v, ∅). split.
    + by apply list_elem_of_In, elem_of_map_to_list.
    + by apply bool_decide_eq_true.
Qed.

Lemma fits_no_empty m d : fits m d → empty_found d = false.
Proof.
  intros Hfits. apply empty_found_false. intros v dv Hv ->.
  destruct (Hfits v ∅ Hv) as (c & _ & Hc). set_solver.
Qed.

Lemma subseteq_singleton_nonempty (dv : gset Z) (c : Z) :
  dv ⊆ {[c]} → dv ≠ ∅ → dv = {[c]}.
Proof.
  intros Hsub Hne. apply set_eq. intros y. split; [apply Hsub|].
  intros ->%elem_of_singleton.
  apply set_choose_L in Hne as [z Hz]. by rewrite <-(elem_of_singleton_1 z c (Hsub _ Hz)).
Qed.

Lemma elem_of_assign_queue adj var Xi Xj :
  (Xi, Xj) ∈ assign_queue adj var ↔ Xj = var ∧ Xi ∈ adj_get adj var.
Proof.
  unfold assign_queue. rewrite list_elem_of_fmap. naive_solver.
Qed.

(** A solution that gives [var] the colour being tried survives the forcing
    and the propagation. *)
Lemma solution_assign adj m s a var value s1 r2 s2 :
  solution adj m s a →
  m !! var = Some value →
  domains s1 = <[var := {[value]}]> (domains s) →
  ac3 adj (assign_queue adj var) s1 = (r2, s2) →
  r2 ≠ Return false ∧ solution adj m s2 (<[var := value]> a).
Proof.
  intros (Hproper & Hfits & Hsub) Hm Hs1 Hac3.
  destruct (ac3_complete adj m (assign_queue adj var) s1 r2 s2 Hproper)
    as [Hr2 Hfits2]; [..|done|].
  - intros Xi Xj [-> ?]%elem_of_assign_queue. by right.
  - rewrite Hs1. intros v dv. destruct (decide (var = v)) as [<-|Hne].
    + rewrite lookup_insert_eq. intros [= <-]. exists value. set_solver.
    + rewrite lookup_insert_ne by done. apply Hfits.
  - split; [done|]. split_and!; [done..|]. by apply insert_subseteq_l.
Qed.

(** The invariant after forcing [var] to [value] and a successful
    propagation that left no domain empty. *)
Lemma consistent_assign adj s a var value s1 s2 :
  consistent adj s a →
  a !! var = None →
  forward s s1 →
  domains s1 = <[var := {[value]}]> (domains s) →
  ac3 adj (assign_queue adj var) s1 = (Return true, s2) →
  empty_found (domains s2) = false →
  consistent adj s2 (<[var := value]> a).
Proof.
  intros [Hsingle Hpruned _] Ha Hfw Hs1 Hac3 Hne.
  pose proof (forward_shrunk _ _ (ac3_forward _ _ _ _ _ Hac3)) as Hshr.
  pose proof (shrunk_trans _ _ _ Hshr (forward_shrunk _ _ Hfw)) as Hshr'.
  rewrite empty_found_false in Hne.
  assert (∀ u c, domains s1 !! u = Some {[c]} → domains s2 !! u = Some {[c]}) as Hkeep.
  { intros u c Hu. destruct (shrunk_lookup_inv _ _ _ _ Hshr Hu) as (du & Hdu & Hsub).
    rewrite Hdu. f_equal. apply subseteq_singleton_nonempty; [done|]. by eapply Hne. }
  assert (domains s1 !! var = Some {[value]}) as Hvar
    by (rewrite Hs1; apply lookup_insert_eq).
  split; [| |done].
  - intros u c. destruct (decide (var = u)) as [<-|Hu].
    + rewrite lookup_insert_eq. intros [= <-]. by apply Hkeep.
    + rewrite lookup_insert_ne by done. intros Hau. apply Hkeep.
      rewrite Hs1, lookup_insert_ne by done. by apply Hsingle.
  - intros u c v dv. destruct (decide (var = u)) as [<-|Hu].
    + rewrite lookup_insert_eq. intros [= <-] Hin Hv.
      eapply (ac3_prunes_neighbours adj var value); [done| |done..].
      intros nb Hnb. by apply elem_of_assign_queue.
    + rewrite lookup_insert_ne by done. intros Hau Hin Hv.
      destruct (shrunk_lookup _ _ _ _ Hshr' Hv) as (dv0 & Hdv0 & Hsub).
      intros Hc. apply (Hpruned u c v dv0 Hau Hin Hdv0). set_solver.
Qed.

(** One iteration of the loop over the values, and then the rest: the store
    and the assignment are back to what they were before each later
    iteration. *)
Lemma try_values_spec rec adj var dvar values s a :
  (∀ s1 a1, dom a1 ⊆ dom (domains s1) →
     size (dom (domains s1) ∖ dom a1) < size (dom (domains s) ∖ dom a) →
     search_post adj s1 a1 (rec s1 a1)) →
  domains s !! var = Some dvar →
  a !! var = None →
  dom a ⊆ dom (domains s) →
  (∀ value, value ∈ values → value ∈ dvar) →
  try_post adj var values s a (try_values rec adj var values s a).
Proof.
  intros Hrec Hvar Ha Hdom. induction values as [|value values IH]; intros Hvals.
  { simpl. split_and!; [done..|]. intros m (_ & Hfits & _).
    destruct (Hfits var dvar Hvar) as (c & Hc & _). exists c.
    split; [done|]. apply not_elem_of_nil. }
  assert ((∀ m, solution adj m s a → m !! var ≠ Some value) →
    try_post adj var (value :: values) s a (try_values rec adj var values s a))
    as Hnext.
  { intros Hnot.
    assert (∀ v, v ∈ values → v ∈ dvar) as Hvals'
      by (intros v Hv; apply Hvals; by right).
    specialize (IH Hvals'). unfold try_post in *.
    destruct (try_values rec adj var values s a) as [[[[]| |] s'] a']; try done.
    destruct IH as (-> & -> & IH). split_and!; [done..|]. intros m Hm.
    destruct (IH m Hm) as (c & Hc & Hnin). exists c. split; [done|].
    apply not_elem_of_cons. split; [|done]. intros ->. by apply (Hnot m). }
  destruct (force_spec var value s dvar Hvar) as (s1 & Hforce & Hs1);
    [apply Hvals; left|].
  pose proof (force_forward _ _ _ _ _ Hforce) as Hfw1.
  destruct (ac3 adj (assign_queue adj var) s1) as [r2 s2] eqn:Hac3.
  pose proof (ac3_forward _ _ _ _ _ Hac3) as Hfw2.
  pose proof (forward_trans _ _ _ Hfw1 Hfw2) as Hfw.
  assert (dom (domains s2) = dom (domains s)) as Hdom2
    by apply shrunk_dom, forward_shrunk, Hfw.
  assert (restore_to (length (trail s)) s2 = (Return (), s)) as Hroll
    by by apply restore_to_forward.
  assert (delete var (<[var := value]> a) = a) as Hdel by by apply delete_insert_id.
  assert (∀ m, solution adj m s a → m !! var = Some value →
    r2 ≠ Return false ∧ solution adj m s2 (<[var := value]> a)) as Hsol.
  { intros m Hm Hmv. by eapply solution_assign. }
  assert (var ∈ dom (domains s)) as Hvardom by by eapply elem_of_dom_2.
  cbn [try_values]. rewrite Hforce, Hac3.
  destruct r2 as [[]|e|].
  - destruct (empty_found (domains s2)) eqn:Hempty.
    { rewrite Hroll, Hdel. apply Hnext. intros m Hm Hmv.
      destruct (Hsol m Hm Hmv) as [_ (_ & Hfits & _)].
      apply fits_no_empty in Hfits. congruence. }
    assert (dom (<[var := value]> a) ⊆ dom (domains s2)) as Hpre1.
    { rewrite dom_insert_L, Hdom2. clear -Hdom Hvardom. set_solver. }
    assert (size (dom (domains s2) ∖ dom (<[var := value]> a))
            < size (dom (domains s) ∖ dom a)) as Hpre2.
    { rewrite dom_insert_L, Hdom2. apply subset_size.
      apply not_elem_of_dom in Ha. clear -Ha Hvardom. set_solver. }
    specialize (Hrec s2 (<[var := value]> a) Hpre1 Hpre2).
    destruct (rec s2 (<[var := value]> a)) as [[[[]|e|] s3] a3];
      unfold search_post in Hrec.
    + destruct Hrec as (Hfw3 & Hsub & Hdom3 & Hcons).
      split_and!; [by eapply forward_trans| |done|].
      * etrans; [|done]. by apply insert_subseteq.
      * intros Hc. apply Hcons.
        by apply (consistent_assign adj s a var value s1 s2).
    + destruct Hrec as (-> & -> & Hno).
      rewrite Hroll, Hdel. apply Hnext.
      intros m Hm Hmv. destruct (Hsol m Hm Hmv) as [_ Hs2]. by apply (Hno m).
    + unfold try_post. by rewrite <-Hdom2.
    + done.
  - rewrite Hroll, Hdel. apply Hnext. intros m Hm Hmv.
    by destruct (Hsol m Hm Hmv) as [? _].
  - simpl. intros Hclosed.
    destruct (ac3_safe adj (assign_queue adj var) s1) as (b & s' & Heq).
    + rewrite (shrunk_dom _ _ (forward_shrunk _ _ Hfw1)). done.
    + rewrite (shrunk_dom _ _ (forward_shrunk _ _ Hfw1)).
      intros Xi Xj [-> Hin]%elem_of_assign_queue. split; [|done].
      by apply (Hclosed var).
    + congruence.
  - pose proof (ac3_terminates adj (assign_queue adj var) s1) as Hterm.
    by rewrite Hac3 in Hterm.
Qed.

(** [backtrack] with more fuel than there are unassigned variables: it
    answers, and
    - [True] with every variable assigned and the invariant kept;
    - [False] with the store and the assignment as they were, and only when
      no solution extends the assignment within the domains;
    - it raises only when the adjacency names an unknown vertex. *)
Lemma backtrack_spec adj n s a :
  dom a ⊆ dom (domains s) →
  size (dom (domains s) ∖ dom a) < n →
  search_post adj s a (backtrack n adj s a).
Proof.
  revert s a. induction n as [|n IH]; intros s a Hdom Hn; [lia|].
  simpl. case_decide as Hsz.
  { split_and!; [apply rtc_refl|done| |done].
    apply set_subseteq_size_eq; [done|]. rewrite !size_dom. lia. }
  destruct (select_unassigned_variable (domains s) a) as [var|] eqn:Hsel.
  - apply select_unassigned_variable_Some in Hsel as (dvar & Hvar & Ha & _).
    destruct (order_domain_values var (domains s) adj a) as [values|e|] eqn:Hord.
    + apply order_domain_values_Return in Hord as (dom' & Hvar' & Hperm).
      simplify_eq.
      assert (try_post adj var values s a
                (try_values (backtrack n adj) adj var values s a)) as Htry.
      { apply (try_values_spec _ adj var dvar); [|done..|].
        - intros s1 a1 ? ?. apply IH; [done|lia].
        - intros value Hv. rewrite Hperm in Hv. by apply elem_of_elements. }
      unfold try_post in Htry. unfold search_post.
      destruct (try_values (backtrack n adj) adj var values s a)
        as [[[[]|e|] s'] a']; [done| |done..].
      destruct Htry as (-> & -> & Hno). split_and!; [done..|]. intros m Hm.
      destruct (Hno m Hm) as (c & Hc & Hnin). destruct Hm as (_ & Hfits & _).
      destruct (Hfits var dvar Hvar) as (c' & Hc' & Hin). simplify_eq.
      apply Hnin. rewrite Hperm. by apply elem_of_elements.
    + intros Hclosed.
      erewrite order_domain_values_known in Hord; [done|done|].
      intros nb Hnb _. apply elem_of_dom. apply (Hclosed var); [|done].
      by eapply elem_of_dom_2.
    + by destruct (order_domain_values_not_out_of_fuel var (domains s) adj a).
  - exfalso. rewrite select_unassigned_variable_None in Hsel. apply Hsz.
    rewrite <-!size_dom. f_equal. apply set_eq. intros v. split; [apply Hdom|].
    rewrite !elem_of_dom. apply Hsel.
Qed.

(** ** The solver *)

Lemma initial_domains_lookup k variables v :
  initial_domains k variables !! v
  = if decide (v ∈ variables) then Some (list_to_set (seqZ 1 k)) else None.
Proof.
  unfold initial_domains.
  assert (∀ d0 : gmap Z (gset Z),
    foldl (λ d v, <[v := list_to_set (seqZ 1 k)]> d) d0 variables !! v
    = if decide (v ∈ variables) then Some (list_to_set (seqZ 1 k)) else d0 !! v) as H.
  { induction variables as [|w ws IH]; intros d0.
    - by destruct (decide (v ∈ [])) as [?%elem_of_nil|].
    - simpl. rewrite IH. destruct (decide (v ∈ ws)) as [Hin|Hnin].
      + by rewrite decide_True by by right.
      + destruct (decide (v = w)) as [->|Hne].
        * by rewrite lookup_insert_eq, decide_True by left.
        * rewrite lookup_insert_ne by done.
          rewrite decide_False; [done|]. by rewrite not_elem_of_cons. }
  by rewrite H, lookup_empty.
Qed.

Lemma initial_domains_dom k variables :
  dom (initial_domains k variables) = list_to_set variables.
Proof.
  apply set_eq. intros v.
  rewrite elem_of_dom, initial_domains_lookup, elem_of_list_to_set.
  case_decide; [split; eauto|]. split; [by intros [? ?]|done].
Qed.

Lemma elem_of_initial_queue variables adj Xi Xj :
  (Xi, Xj) ∈ initial_queue variables adj ↔ Xi ∈ variables ∧ Xj ∈ adj_get adj Xi.
Proof.
  unfold initial_queue. rewrite list_elem_of_bind. split.
  - intros (X & Hin & HX). apply list_elem_of_fmap in Hin as (Y & [= -> ->] & HY). done.
  - intros [? ?]. exists Xi. split; [|done]. apply list_elem_of_fmap. eauto.
Qed.

Lemma assemble_assigned variables d a :
  (∀ v, v ∈ variables → is_Some (a !! v)) →
  assemble variables d a = Return (Some a).
Proof.
  induction variables as [|v vs IH]; intros Hall; simpl; [done|].
  destruct (Hall v) as [c ->]; [left|]. apply IH. intros w Hw. apply Hall. by right.
Qed.

Lemma valid_coloring_fits k variables adj m :
  valid_coloring k variables adj m → fits m (initial_domains k variables).
Proof.
  intros (Hdom & Hrange & _) v dv. rewrite initial_domains_lookup.
  case_decide as Hv; [|done]. intros [= <-].
  assert (v ∈ dom m) as [c Hc]%elem_of_dom by (rewrite Hdom; set_solver).
  exists c. split; [done|]. rewrite elem_of_list_to_set, elem_of_seqZ.
  specialize (Hrange v c Hc). lia.
Qed.

(** The outcomes of [solve_graph_coloring]: a mapping is a valid colouring;
    the failure signal means that there is none; an exception means that the
    adjacency list of a variable names a vertex that is not a variable; and
    the fuel suffices. *)
Lemma solve_graph_coloring_spec k variables adj :
  match solve_graph_coloring k variables adj with
  | Return (Some m) => valid_coloring k variables adj m
  | Return None => ∀ m, ¬ valid_coloring k variables adj m
  | Raise _ => ¬ closed adj (list_to_set variables)
  | OutOfFuel => False
  end.
Proof.
  unfold solve_graph_coloring.
  set (s0 := Store (initial_domains k variables) []).
  assert (∀ m, valid_coloring k variables adj m →
    proper adj m ∧ fits m (domains s0)) as Hvalid.
  { intros m Hm. split; [by destruct Hm as (_ & _ & ?)|].
    by eapply valid_coloring_fits. }
  assert (arcs_edges adj (initial_queue variables adj)) as Hedges.
  { intros Xi Xj [_ ?]%elem_of_initial_queue. by left. }
  destruct (ac3 adj (initial_queue variables adj) s0) as [r1 s1] eqn:Hac3.
  pose proof (ac3_forward _ _ _ _ _ Hac3) as Hfw1.
  pose proof (shrunk_dom _ _ (forward_shrunk _ _ Hfw1)) as Hdom1.
  simpl in Hdom1. rewrite initial_domains_dom in Hdom1.
  assert (∀ m, valid_coloring k variables adj m →
    r1 ≠ Return false ∧ solution adj m s1 ∅) as Hsol.
  { intros m [Hproper Hfits]%Hvalid.
    destruct (ac3_complete adj m _ s0 r1 s1 Hproper Hedges Hfits Hac3).
    split; [done|]. split_and!; [done..|]. apply map_empty_subseteq. }
  destruct r1 as [[]|e|].
  - destruct (empty_found (domains s1)) eqn:Hempty.
    { intros m [_ (_ & Hfits%fits_no_empty & _)]%Hsol. congruence. }
    assert (search_post adj s1 ∅ (backtrack (S (size (domains s1))) adj s1 ∅)) as Hbt.
    { apply backtrack_spec.
      - rewrite dom_empty_L. apply empty_subseteq.
      - rewrite dom_empty_L, difference_empty_L, size_dom. lia. }
    destruct (backtrack (S (size (domains s1))) adj s1 ∅) as [[[[]|e|] s2] a2];
      unfold search_post in Hbt.
    + destruct Hbt as (Hfw2 & _ & Hdom2 & Hcons).
      pose proof (forward_shrunk _ _ (forward_trans _ _ _ Hfw1 Hfw2)) as Hshr.
      rewrite (shrunk_dom _ _ (forward_shrunk _ _ Hfw2)), Hdom1 in Hdom2.
      destruct Hcons as [Hsingle Hpruned _].
      { split; [intros ?? H; by rewrite lookup_empty in H
               |intros ???? H; by rewrite lookup_empty in H
               |by apply empty_found_false]. }
      rewrite assemble_assigned; last first.
      { intros v Hv. apply elem_of_dom. rewrite Hdom2. set_solver. }
      split_and!; [done| |].
      * intros v c Hv. apply Hsingle in Hv.
        destruct (shrunk_lookup _ _ _ _ Hshr Hv) as (dv & Hdv & Hsub).
        simpl in Hdv. rewrite initial_domains_lookup in Hdv.
        case_decide; [|done]. simplify_eq.
        assert (c ∈ (list_to_set (seqZ 1 k) : gset Z)) as Hc by set_solver.
        rewrite elem_of_list_to_set, elem_of_seqZ in Hc. lia.
      * intros u v cu cv Hin Hu Hv Heq. subst cv.
        apply Hsingle in Hv. eapply Hpruned; [done..|]. set_solver.
    + destruct Hbt as (_ & _ & Hno). intros m [_ ?]%Hsol. by apply (Hno m).
    + by rewrite <-Hdom1.
    + done.
  - intros m [? _]%Hsol. done.
  - intros Hclosed.
    destruct (ac3_safe adj (initial_queue variables adj) s0) as (b & s' & Heq).
    + simpl. by rewrite initial_domains_dom.
    + simpl. rewrite initial_domains_dom.
      intros Xi Xj [HXi Hin]%elem_of_initial_queue.
      split; [set_solver|]. apply (Hclosed Xi); [set_solver|done].
    + congruence.
  - pose proof (ac3_terminates adj (initial_queue variables adj) s0) as Hterm.
    by rewrite Hac3 in Hterm.
Qed.

(** A run of [ac3] that answers [True] has looked up both ends of every arc
    of its queue. *)
Lemma ac3_true_known adj q s s' :
  ac3 adj q s = (Return true, s') → arcs_known (dom (domains s)) q.
Proof.
  intros Heq. set (V := dom (domains s)).
  refine (ac3_rule adj
    (λ q' s1, dom (domains s1) = V ∧
       ∀ Xi Xj, (Xi, Xj) ∈ q → (Xi, Xj) ∈ q' ∨ (Xi ∈ V ∧ Xj ∈ V))
    (λ r, ∀ s', r = (Return true, s') → arcs_known V q)
    _ _ _ _ q s _ s' Heq); [| | | |by auto].
  - intros s0 [_ Hq] _ _ Xi Xj Hin.
    by destruct (Hq Xi Xj Hin) as [?%elem_of_nil|].
  - done.
  - intros Xi Xj q0 s0 domX domY [Hdom Hq] HX%elem_of_dom_2 HY%elem_of_dom_2 _.
    split; [done|]. intros Xi' Xj' Hin.
    destruct (Hq Xi' Xj' Hin) as [[[= -> ->]|?]%elem_of_cons|?]; auto.
    right. by rewrite <-Hdom.
  - intros Xi Xj q0 s0 domX x [Hdom Hq] HX%elem_of_dom_2 HY%elem_of_dom_2 _.
    simpl. case_decide; [done|]. simpl. split.
    + rewrite dom_insert_L, <-Hdom. clear -HX. set_solver.
    + intros Xi' Xj' Hin.
      destruct (Hq Xi' Xj' Hin) as [[[= -> ->]|?]%elem_of_cons|?]; auto.
      * right. by rewrite <-Hdom.
      * left. apply elem_of_app. by left.
Qed.

Lemma solve_graph_coloring_closed k variables adj m :
  solve_graph_coloring k variables adj = Return (Some m) →
  closed adj (list_to_set variables).
Proof.
  unfold solve_graph_coloring.
  destruct (ac3 adj (initial_queue variables adj)
              (Store (initial_domains k variables) [])) as [[[]|e|] s1] eqn:Hac3;
    try done.
  intros _ u v Hu Hv. apply ac3_true_known in Hac3. simpl in Hac3.
  rewrite initial_domains_dom in Hac3.
  apply (Hac3 u v). apply elem_of_initial_queue. split; [|done].
  by apply elem_of_list_to_set in Hu.
Qed.


Lemma triangle_lookup u :
  triangle !! u
  = if decide (u = 1%Z) then Some [2; 3]%Z
    else if decide (u = 2%Z) then Some [1; 3]%Z
    else if decide (u = 3%Z) then Some [1; 2]%Z
    else None.
Proof.
  unfold triangle. cbn [list_to_map foldr uncurry].
  repeat (rewrite lookup_insert; case_decide; simplify_eq;
          [by repeat (case_decide; simplify_eq)|]).
  rewrite lookup_empty. by repeat (case_decide; simplify_eq).
Qed.

Lemma triangle_graph_input : graph_input 2 [1; 2; 3]%Z triangle.
Proof.
  split; [| | |done].
  - intros u. rewrite triangle_lookup.
    repeat (case_decide; [subst; set_solver|]). by intros [? ?].
  - intros u v. unfold adj_get. rewrite !triangle_lookup.
    repeat (case_decide; subst; simpl); set_solver.
  - intros u. unfold adj_get. rewrite triangle_lookup.
    repeat (case_decide; subst; simpl); set_solver.
Qed.

(** An adjacency list that names a vertex outside the variables makes
    [domains[Xj]] raise. *)
Example solve_unknown_neighbour :
  solve_graph_coloring 2 [1]%Z {[1%Z := [2]%Z]} = Raise KeyError.
Proof. by vm_compute. Qed.

Example solve_small_graph :
  solve_graph_coloring 3 [1; 2; 3; 4]%Z small_graph = Return (Some small_coloring).
Proof. by vm_compute. Qed.

(** The sample files within a depth: the four vertices of the first need
    five nested calls of [backtrack]; the second fails in the first call. *)
Example main_within_samples :
  main_within 5 small_lines = Return (Some (ordered_items small_coloring)) ∧
  main_within 4 small_lines = Raise RecursionError ∧
  main_within 1 tight_lines = Return None.
Proof. by vm_compute. Qed.

(** ** The depth of the recursion *)

Lemma try_values_more rec rec' adj var values s a r :
  (∀ s1 a1, (rec s1 a1).1.1 ≠ OutOfFuel → rec' s1 a1 = rec s1 a1) →
  try_values rec adj var values s a = r →
  r.1.1 ≠ OutOfFuel →
  try_values rec' adj var values s a = r.
Proof.
  intros Hrec. revert s a.
  induction values as [|value values IH]; intros s a Heq Hr; [done|].
  cbn [try_values] in Heq |- *.
  destruct (force var value s) as [[[]|e|] s1]; [|done|by subst].
  destruct (ac3 adj (assign_queue adj var) s1) as [[[]|e|] s2]; [| |done|by subst].
  - destruct (empty_found (domains s2)).
    { destruct (restore_to (length (trail s)) s2) as [[[]|e|] s3];
        [by apply IH|done|by subst]. }
    pose proof (Hrec s2 (<[var := value]> a)) as Hrec2.
    destruct (rec s2 (<[var := value]> a)) as [[[[]|e|] s3] a3];
      [rewrite Hrec2 by done; done|rewrite Hrec2 by done
      |rewrite Hrec2 by done; done|by subst].
    destruct (restore_to (length (trail s)) s3) as [[[]|e|] s4];
      [by apply IH|done|by subst].
  - destruct (restore_to (length (trail s)) s2) as [[[]|e|] s3];
      [by apply IH|done|by subst].
Qed.

(** More fuel does not change an answer of [backtrack]. *)
Lemma backtrack_more adj n n' s a :
  (backtrack n adj s a).1.1 ≠ OutOfFuel → n ≤ n' →
  backtrack n' adj s a = backtrack n adj s a.
Proof.
  revert n' s a. induction n as [|n IH]; intros n' s a Hr Hle; [done|].
  destruct n' as [|n']; [lia|]. simpl in Hr |- *.
  case_decide; [done|].
  destruct (select_unassigned_variable (domains s) a) as [var|]; [|done].
  destruct (order_domain_values var (domains s) adj a) as [values|e|]; [|done..].
  eapply try_values_more; [|done..].
  intros s1 a1 Hr1. apply IH; [done|lia].
Qed.


Lemma size_list_to_set_le (l : list Z) :
  size (list_to_set l : gset Z) ≤ length l.
Proof.
  induction l as [|x l IH]; [by rewrite list_to_set_nil, size_empty|].
  rewrite list_to_set_cons, size_union_alt, size_singleton. simpl.
  assert (size (list_to_set l ∖ {[x]} : gset Z) ≤ size (list_to_set l : gset Z))
    by (apply subseteq_size; set_solver).
  lia.
Qed.

(** With more depth than there are unassigned variables [backtrack] does
    not run out of depth. *)
Lemma backtrack_answers adj n s a :
  dom a ⊆ dom (domains s) →
  size (dom (domains s) ∖ dom a) < n →
  (backtrack n adj s a).1.1 ≠ OutOfFuel.
Proof.
  intros Hdom Hn. pose proof (backtrack_spec adj n s a Hdom Hn) as Hspec.
  unfold search_post in Hspec.
  by destruct (backtrack n adj s a) as [[[[]|e|] s'] a'].
Qed.

(** At any depth, [backtrack] runs out of depth or does what it does with
    one level for each unassigned variable and one more. *)
Lemma backtrack_fuel_cases adj n s a :
  dom a ⊆ dom (domains s) →
  (backtrack n adj s a).1.1 = OutOfFuel ∨
  backtrack n adj s a = backtrack (S (size (dom (domains s) ∖ dom a))) adj s a.
Proof.
  intros Hdom. set (N := S (size (dom (domains s) ∖ dom a))).
  destruct (le_lt_dec n N) as [Hle|Hlt].
  - destruct ((backtrack n adj s a).1.1) as [b|e|] eqn:Hr; [| |by left];
      right; symmetry; apply backtrack_more; [by rewrite Hr|done|by rewrite Hr|done].
  - right. apply backtrack_more; [|lia]. apply backtrack_answers; [done|]. unfold N. lia.
Qed.




Lemma solve_graph_coloring_ac3_dom k variables adj r s1 :
  ac3 adj (initial_queue variables adj) (Store (initial_domains k variables) [])
  = (r, s1) →
  dom (domains s1) = list_to_set variables.
Proof.
  intros Hac3%ac3_forward%forward_shrunk%shrunk_dom.
  simpl in Hac3. by rewrite initial_domains_dom in Hac3.
Qed.

(** Within any depth the solver raises [RecursionError] or does what it does
    with depth enough. *)
Lemma solve_within_cases depth k variables adj :
  solve_graph_coloring_within depth k variables adj = Raise RecursionError ∨
  solve_graph_coloring_within depth k variables adj
  = solve_graph_coloring k variables adj.
Proof.
  unfold solve_graph_coloring_within, solve_graph_coloring.
  destruct (ac3 adj (initial_queue variables adj)
              (Store (initial_domains k variables) [])) as [[[]|e|] s1];
    [|by right..].
  destruct (empty_found (domains s1)); [by right|].
  assert (dom (∅ : gmap Z Z) ⊆ dom (domains s1)) as Hdom
    by (rewrite dom_empty_L; apply empty_subseteq).
  destruct (backtrack_fuel_cases adj depth s1 ∅ Hdom) as [Hout|Hsame].
  - left. by destruct (backtrack depth adj s1 ∅) as [[[[]|e|] s2] a2].
  - right. rewrite Hsame, dom_empty_L, difference_empty_L, size_dom.
    pose proof (backtrack_answers adj (S (size (domains s1))) s1 ∅ Hdom) as Hans.
    rewrite dom_empty_L, difference_empty_L, size_dom in Hans.
    destruct (backtrack (S (size (domains s1))) adj s1 ∅) as [[[[]|e|] s2] a2];
      [done..|]. destruct Hans; [lia|done].
Qed.

(** A depth greater than the number of variables is enough. *)
Lemma solve_within_enough depth k variables adj :
  size (list_to_set variables : gset Z) < depth →
  solve_graph_coloring_within depth k variables adj
  = solve_graph_coloring k variables adj.
Proof.
  intros Hdepth. unfold solve_graph_coloring_within, solve_graph_coloring.
  destruct (ac3 adj (initial_queue variables adj)
              (Store (initial_domains k variables) [])) as [[[]|e|] s1] eqn:Hac3;
    [|done..].
  apply solve_graph_coloring_ac3_dom in Hac3.
  destruct (empty_found (domains s1)); [done|].
  assert (dom (∅ : gmap Z Z) ⊆ dom (domains s1)) as Hdom
    by (rewrite dom_empty_L; apply empty_subseteq).
  pose proof (backtrack_answers adj (S (size (domains s1))) s1 ∅ Hdom) as Hans.
  rewrite dom_empty_L, difference_empty_L, size_dom in Hans.
  rewrite (backtrack_more adj (S (size (domains s1))) depth);
    [|apply Hans; lia|rewrite <-size_dom, Hac3; lia].
  destruct (backtrack (S (size (domains s1))) adj s1 ∅) as [[[[]|e|] s2] a2];
    [done..|]. destruct Hans; [lia|done].
Qed.





(** * The specification *)

(** C1. Whenever [solve_graph_coloring] returns a mapping, the mapping gives
    a colour to exactly the variables of the input, every colour lies in
    [1..k], every neighbour listed for a variable is coloured too, and the
    two ends of every edge have different colours. *)
Theorem solve_graph_coloring_sound k variables adj m :
  solve_graph_coloring k variables adj = Return (Some m) →
  (∀ v, v ∈ variables ↔ is_Some (m !! v)) ∧
  (∀ v c, m !! v = Some c → (1 ≤ c ≤ k)%Z) ∧
  (∀ u v, u ∈ variables → v ∈ adj_get adj u →
     ∃ cu cv, m !! u = Some cu ∧ m !! v = Some cv ∧ cu ≠ cv) ∧
  (∀ u v cu cv, v ∈ adj_get adj u →
     m !! u = Some cu → m !! v = Some cv → cu ≠ cv).
Proof.
  intros Hsolve. pose proof (solve_graph_coloring_closed _ _ _ _ Hsolve) as Hclosed.
  pose proof (solve_graph_coloring_spec k variables adj) as Hspec.
  rewrite Hsolve in Hspec. destruct Hspec as (Hdom & Hrange & Hproper).
  assert (∀ v, v ∈ variables ↔ is_Some (m !! v)) as Hvars.
  { intros v. by rewrite <-elem_of_dom, Hdom, elem_of_list_to_set. }
  split_and!; [done..| |done].
  intros u v Hu Hv.
  assert (v ∈ variables) as Hv'.
  { apply (elem_of_list_to_set (C:=gset Z)), (Hclosed u v); [|done].
    by apply elem_of_list_to_set. }
  apply Hvars in Hu as [cu Hcu]. apply Hvars in Hv' as [cv Hcv].
  exists cu, cv. split_and!; [done..|]. by eapply Hproper.
Qed.

Lemma solve_graph_coloring_sound_witness :
  solve_graph_coloring 3 [1; 2; 3; 4]%Z small_graph = Return (Some small_coloring) ∧
  ∀ u v cu cv, v ∈ adj_get small_graph u →
    small_coloring !! u = Some cu → small_coloring !! v = Some cv → cu ≠ cv.
Proof.
  assert (solve_graph_coloring 3 [1; 2; 3; 4]%Z small_graph
          = Return (Some small_coloring)) as Hsolve by (vm_compute; reflexivity).
  split; [exact Hsolve|].
  apply (solve_graph_coloring_sound 3 [1; 2; 3; 4]%Z small_graph small_coloring Hsolve).
Defined.




(** C9. With no variable the solver returns the empty mapping, for every
    [k] and every adjacency. *)
Theorem solve_graph_coloring_empty k adj :
  solve_graph_coloring k [] adj = Return (Some ∅).
Proof.
  pose proof (solve_graph_coloring_spec k [] adj) as Hspec.
  destruct (solve_graph_coloring k [] adj) as [[m|]|e|]; [| | |done].
  - destruct Hspec as (Hdom & _). do 2 f_equal. by apply dom_empty_inv_L.
  - destruct (Hspec ∅). split_and!; [by rewrite dom_empty_L|..].
    + intros ?? H. by rewrite lookup_empty in H.
    + intros ????? H. by rewrite lookup_empty in H.
  - destruct Hspec. intros u v Hu. by apply elem_of_empty in Hu.
Qed.

(** With [k ≤ 0] every initial domain is empty, so that no revision
    removes anything. *)
Lemma ac3_no_colors k variables adj :
  (k ≤ 0)%Z →
  closed adj (list_to_set variables) →
  ac3 adj (initial_queue variables adj) (Store (initial_domains k variables) [])
  = (Return true, Store (initial_domains k variables) []).
Proof.
  intros Hk Hclosed. set (s0 := Store (initial_domains k variables) []).
  assert (∀ v dv, domains s0 !! v = Some dv → dv = ∅) as Hempty.
  { intros v dv. simpl. rewrite initial_domains_lookup. case_decide; [|done].
    intros [= <-]. by rewrite seqZ_nil by lia. }
  refine (ac3_rule adj
    (λ q s1, s1 = s0 ∧ arcs_known (list_to_set variables) q)
    (λ r, r = (Return true, s0)) _ _ _ _ (initial_queue variables adj) s0 _).
  - by intros s1 [-> _].
  - intros Xi Xj q s1 [-> (HXi & HXj & _)%arcs_known_cons] Hno.
    rewrite <-(initial_domains_dom k), !elem_of_dom in HXi, HXj. simpl in Hno.
    destruct Hno as [Hno|Hno]; rewrite Hno in *; by destruct HXi, HXj.
  - by intros Xi Xj q s1 domX domY [-> (_ & _ & ?)%arcs_known_cons] _ _ _.
  - intros Xi Xj q s1 domX x [-> _] _ HY%Hempty _.
    assert (x ∈ (∅ : gset Z)) as []%elem_of_empty. rewrite <-HY. set_solver.
  - split; [done|]. intros Xi Xj [HXi Hin]%elem_of_initial_queue.
    assert (Xi ∈ (list_to_set variables : gset Z)) by set_solver.
    split; [done|]. by apply (Hclosed Xi).
Qed.

(** C10. With [k ≤ 0] and at least one variable the solver returns the
    failure signal, whatever the edges between the variables: the
    preprocessing run of [ac3] succeeds without removing anything, and the
    check that follows it finds an empty domain. *)
Theorem solve_graph_coloring_no_colors k variables adj :
  (k ≤ 0)%Z →
  variables ≠ [] →
  (∀ u v, u ∈ variables → v ∈ adj_get adj u → v ∈ variables) →
  ac3 adj (initial_queue variables adj) (Store (initial_domains k variables) [])
  = (Return true, Store (initial_domains k variables) []) ∧
  empty_found (initial_domains k variables) = true ∧
  solve_graph_coloring k variables adj = Return None.
Proof.
  intros Hk Hne Hclosed.
  assert (ac3 adj (initial_queue variables adj) (Store (initial_domains k variables) [])
          = (Return true, Store (initial_domains k variables) [])) as Hac3.
  { apply ac3_no_colors; [done|]. intros u v Hu%elem_of_list_to_set Hv.
    apply elem_of_list_to_set. by apply (Hclosed u v). }
  assert (empty_found (initial_domains k variables) = true) as Hempty.
  { apply empty_found_true. destruct variables as [|v vs]; [done|]. exists v.
    rewrite initial_domains_lookup, decide_True by left.
    by rewrite seqZ_nil by lia. }
  split_and!; [done..|].
  unfold solve_graph_coloring. rewrite Hac3. simpl. by rewrite Hempty.
Qed.

Lemma solve_graph_coloring_no_colors_witness :
  solve_graph_coloring 0 [1; 2; 3]%Z triangle = Return None.
Proof.
  apply (solve_graph_coloring_no_colors 0 [1; 2; 3]%Z triangle); [lia|done|].
  intros u v _ Hv. apply (adj_variables _ _ _ triangle_graph_input).
  apply (adj_symmetric _ _ _ triangle_graph_input) in Hv.
  unfold adj_get in Hv. destruct (triangle !! v); [done|].
  by apply elem_of_nil in Hv.
Defined.

Lemma trailed_ops_forward adj s s' : trailed_ops adj s s' → forward s s'.
Proof.
  induction 1 as [s|X Y s r s1 s2 Heq _ IH|var value s r s1 s2 Heq _ IH
                 |q s r s1 s2 Heq _ IH]; [apply rtc_refl|..];
    (eapply forward_trans; [|exact IH]).
  - by eapply revise_forward.
  - by eapply force_forward.
  - by eapply ac3_forward.
Qed.

(** C3. Trail round trip: from any store, with the length of its trail
    taken as the mark, after any sequence of removals made by [revise], by
    the singleton forcing or by [ac3], the rollback loop run down to the
    mark gives back the store of the mark: every domain with the contents
    it had, and the trail at its old length. *)
Theorem trail_round_trip adj s s' :
  trailed_ops adj s s' →
  restore_to (length (trail s)) s' = (Return (), s).
Proof. intros Hops. by apply restore_to_forward, (trailed_ops_forward adj). Qed.

Lemma trail_round_trip_witness :
  restore_to 0 (revise 2 1 (force 1 1 two_vertices).2).2 = (Return (), two_vertices).
Proof.
  apply (trail_round_trip ∅ two_vertices).
  eapply (ops_force ∅ 1 1 two_vertices); [apply surjective_pairing|].
  eapply (ops_revise ∅ 2 1); [apply surjective_pairing|].
  apply ops_done.
Defined.

(** C4. [revise] on two variables of the store removes from the domain of
    [X] exactly the values [x] for which the domain of [Y] is [{x}], appends
    the pair [(X, x)] to the trail for each of them, leaves everything else
    as it was, and returns [True] exactly when it removed a value. *)
Theorem revise_correct X Y s domX domY :
  domains s !! X = Some domX →
  domains s !! Y = Some domY →
  ∃ b s' removed,
    revise X Y s = (Return b, s') ∧
    NoDup removed ∧
    (∀ x, x ∈ removed ↔ x ∈ domX ∧ domY = {[x]}) ∧
    domains s' = <[X := domX ∖ list_to_set removed]> (domains s) ∧
    trail s' = trail s ++ ((λ x, (X, x)) <$> removed) ∧
    (b = true ↔ removed ≠ []).
Proof.
  intros HX HY.
  destruct (revise_cases X Y s) as [[Hno|Hno]|domX' domY' HX' HY' Hkeep|domX' x HX' HY' Hx];
    simplify_eq.
  - exists false, s, []. split_and!; [done|apply NoDup_nil_2|..|done].
    + intros x. rewrite elem_of_nil. split; [done|]. intros [? ->]. by eapply Hkeep.
    + by rewrite list_to_set_nil, difference_empty_L, insert_id.
    + by rewrite app_nil_r.
  - eexists true, _, [x]. split_and!; [done|apply NoDup_singleton|..|done].
    + intros y. rewrite list_elem_of_singleton. split; [by intros ->|].
      intros [_ Heq]. by apply (inj singleton) in Heq.
    + simpl. f_equal. set_solver.
    + done.
Qed.

Lemma revise_correct_witness :
  ∃ b s' removed,
    revise 2 1 (force 1 1 two_vertices).2 = (Return b, s') ∧
    NoDup removed ∧
    (∀ x, x ∈ removed ↔ x ∈ (list_to_set (seqZ 1 2) : gset Z) ∧ ({[1%Z]} : gset Z) = {[x]}) ∧
    domains s'
    = <[2%Z := list_to_set (seqZ 1 2) ∖ list_to_set removed]>
        (domains (force 1 1 two_vertices).2) ∧
    trail s' = trail (force 1 1 two_vertices).2 ++ ((λ x, (2%Z, x)) <$> removed) ∧
    (b = true ↔ removed ≠ []).
Proof.
  apply (revise_correct 2 1 (force 1 1 two_vertices).2); vm_compute; reflexivity.
Defined.

(** C5. [ac3] terminates on every queue and store: from [ac3_fuel] on, every
    amount of fuel gives one and the same result, which is not the end of
    the fuel; and in the store it leaves, the variables are those of the
    store it was given, each with a subset of the colours it had. *)
Theorem ac3_terminates_monotone adj q s :
  ∃ r s',
    (∀ n, ac3_fuel adj q s ≤ n → ac3_loop n adj q s = (r, s')) ∧
    r ≠ OutOfFuel ∧
    dom (domains s') = dom (domains s) ∧
    (∀ v dv', domains s' !! v = Some dv' →
       ∃ dv, domains s !! v = Some dv ∧ dv' ⊆ dv).
Proof.
  destruct (ac3 adj q s) as [r s'] eqn:Hac3. exists r, s'.
  pose proof (forward_shrunk _ _ (ac3_forward _ _ _ _ _ Hac3)) as Hshr.
  split_and!.
  - intros n Hn. by rewrite ac3_loop_ac3.
  - pose proof (ac3_terminates adj q s) as Hterm. by rewrite Hac3 in Hterm.
  - by apply shrunk_dom.
  - intros v dv'. by apply shrunk_lookup.
Qed.

(** A run of [ac3] that does not answer [False] has emptied no domain. *)
Lemma ac3_not_false_no_new_empty adj q s r s' :
  ac3 adj q s = (r, s') → r ≠ Return false →
  ∀ v, domains s' !! v = Some ∅ → domains s !! v = Some ∅.
Proof.
  intros Heq. change (((r, s').1 ≠ Return false) →
    ∀ v, domains (r, s').2 !! v = Some ∅ → domains s !! v = Some ∅).
  rewrite <-Heq.
  refine (ac3_rule adj
    (λ _ s1, ∀ v, domains s1 !! v = Some ∅ → domains s !! v = Some ∅)
    (λ r, r.1 ≠ Return false →
       ∀ v, domains r.2 !! v = Some ∅ → domains s !! v = Some ∅)
    _ _ _ _ q s _); [by auto|by auto|by auto| |by auto].
  intros Xi Xj q0 s0 domX x Hinv HX HY Hx. simpl.
  case_decide as Hsz; [done|]. intros v.
  destruct (decide (Xi = v)) as [<-|Hne].
  - rewrite lookup_insert_eq. intros [= Hempty]. destruct Hsz.
    by rewrite Hempty, size_empty.
  - rewrite lookup_insert_ne by done. apply Hinv.
Qed.

(** C6. Failure of [ac3].
    - When the revision of the arc at the head of the queue empties the
      domain of [Xi], [ac3] returns [False] at once, with the store as that
      revision left it; so does every iteration of its loop.
    - Whenever [ac3] returns [False], some domain is empty, nothing has been
      restored, and every removal of the run is on the trail: rolling back
      to the old length of the trail gives the old store.
    - An emptied domain is reported by the answer [False] and by nothing
      else: a run with another outcome has emptied no domain, and with
      known arcs and a closed adjacency [ac3] does not raise. *)
Theorem ac3_failure_semantics adj q s :
  (∀ Xi Xj q' s1, q = (Xi, Xj) :: q' →
     revise Xi Xj s = (Return true, s1) →
     domains s1 !! Xi = Some ∅ →
     ac3 adj q s = (Return false, s1) ∧
     ∀ n, ac3_loop (S n) adj q s = (Return false, s1)) ∧
  (∀ s', ac3 adj q s = (Return false, s') →
     (∃ Xi, domains s' !! Xi = Some ∅) ∧
     forward s s' ∧
     restore_to (length (trail s)) s' = (Return (), s)) ∧
  (∀ r s', ac3 adj q s = (r, s') → r ≠ Return false →
     ∀ v, domains s' !! v = Some ∅ → domains s !! v = Some ∅) ∧
  (closed adj (dom (domains s)) → arcs_known (dom (domains s)) q →
     ∃ b s', ac3 adj q s = (Return b, s')).
Proof.
  split_and!.
  - intros Xi Xj q' s1 -> Hrev Hempty. unfold ac3, ac3_fuel.
    cbn [length Nat.add ac3_loop]. rewrite Hrev, Hempty. by split.
  - intros s' Heq. pose proof (ac3_forward _ _ _ _ _ Heq) as Hfw.
    split_and!; [by eapply ac3_false_empty|done|by apply restore_to_forward].
  - apply ac3_not_false_no_new_empty.
  - apply ac3_safe.
Qed.

Lemma ac3_failure_semantics_witness :
  ac3 triangle [(1, 2)]%Z clash = (Return false, (revise 1 2 clash).2).
Proof.
  apply (proj1 (ac3_failure_semantics triangle [(1, 2)]%Z clash) 1%Z 2%Z []);
    vm_compute; reflexivity.
Defined.

(** C7. MRV: when some variable of the store is unassigned,
    [select_unassigned_variable] returns an unassigned variable whose domain
    is of minimal size among the unassigned ones, and of smallest identifier
    among those of minimal size; when every variable is assigned it returns
    [None]. *)
Theorem select_unassigned_variable_mrv d a :
  ((∃ v, is_Some (d !! v) ∧ a !! v = None) →
     ∃ var dvar,
       select_unassigned_variable d a = Some var ∧
       d !! var = Some dvar ∧ a !! var = None ∧
       ∀ w dw, d !! w = Some dw → a !! w = None →
         size dvar ≤ size dw ∧ (size dw = size dvar → (var ≤ w)%Z)) ∧
  ((∀ v, is_Some (d !! v) → is_Some (a !! v)) →
     select_unassigned_variable d a = None).
Proof.
  split; [|apply select_unassigned_variable_None].
  intros (v & Hv & Hav).
  destruct (select_unassigned_variable d a) as [var|] eqn:Hsel.
  - apply select_unassigned_variable_Some in Hsel as (dvar & Hvar & Ha & Hmin).
    exists var, dvar. split_and!; [done..|]. intros w dw Hw Haw.
    specialize (Hmin w dw Hw Haw). unfold tuple_le in Hmin. simpl in Hmin. lia.
  - rewrite select_unassigned_variable_None in Hsel.
    destruct (Hsel v Hv) as [? ?]. congruence.
Qed.

Lemma select_unassigned_variable_mrv_witness :
  select_unassigned_variable mrv_domains {[1 := 2]}%Z = Some 3%Z ∧
  ∃ var dvar,
    select_unassigned_variable mrv_domains {[1 := 2]}%Z = Some var ∧
    mrv_domains !! var = Some dvar ∧
    ({[1 := 2]}%Z : gmap Z Z) !! var = None ∧
    ∀ w dw, mrv_domains !! w = Some dw →
      ({[1 := 2]}%Z : gmap Z Z) !! w = None →
      size dvar ≤ size dw ∧ (size dw = size dvar → (var ≤ w)%Z).
Proof.
  split; [vm_compute; reflexivity|].
  apply (proj1 (select_unassigned_variable_mrv mrv_domains {[1 := 2]}%Z)).
  exists 2%Z. split; vm_compute; eauto.
Defined.

Lemma fmap_key_snd {A B} (key : B → A * B) (l : list (A * B)) :
  (∀ p, p ∈ l → p = key p.2) → key <$> l.*2 = l.
Proof.
  induction l as [|p l IH]; intros Hkey; [done|].
  rewrite !fmap_cons, <-(Hkey p) by left. f_equal.
  apply IH. intros q Hq. apply Hkey. by right.
Qed.

(** C8. LCV: for a variable of the store whose unassigned neighbours are
    variables of the store, [order_domain_values] returns the values of its
    domain, each once, in increasing order of elimination count, values of
    equal count in increasing order. The elimination count of a value is the
    number of entries of the adjacency list that are unassigned and whose
    domain holds the value; the adjacency lists being free of duplicates,
    that is the number of such neighbours. *)
Theorem order_domain_values_lcv var d adj a dom :
  d !! var = Some dom →
  (∀ nb, nb ∈ adj_get adj var → a !! nb = None → is_Some (d !! nb)) →
  (∃ values,
     order_domain_values var d adj a = Return values ∧
     values ≡ₚ elements dom ∧
     StronglySorted
       (λ x y, tuple_le (elimination_count d a (adj_get adj var) x, x)
                        (elimination_count d a (adj_get adj var) y, y)) values) ∧
  (NoDup (adj_get adj var) →
   ∀ val, elimination_count d a (adj_get adj var) val
          = size (filter (constrained d a val)
                    (list_to_set (adj_get adj var) : gset Z))).
Proof.
  intros Hvar Hknown. split; [|intros; by apply elimination_count_NoDup].
  rewrite (order_domain_values_known var d adj a dom) by done.
  set (key := λ val, (elimination_count d a (adj_get adj var) val, val)).
  set (l := merge_sort tuple_le (key <$> sorted dom)).
  assert (l ≡ₚ key <$> sorted dom) as Hperm by apply merge_sort_Permutation.
  eexists. split_and!; [done|..].
  - assert (∀ vs, (key <$> vs).*2 = vs) as Hsnd.
    { induction vs as [|v vs IH]; [done|]. by rewrite !fmap_cons, IH. }
    rewrite Hperm, Hsnd. apply sorted_Permutation.
  - apply Sorted_StronglySorted.
    { intros x y z Hxy Hyz. by etrans. }
    apply Sorted_fmap_inv. rewrite fmap_key_snd.
    + apply Sorted_merge_sort, _.
    + intros p Hp. fold l in Hp. rewrite Hperm in Hp.
      by apply list_elem_of_fmap in Hp as (val & -> & _).
Qed.

Lemma order_domain_values_lcv_witness :
  order_domain_values 1 lcv_domains triangle ∅ = Return [3; 2; 1]%Z ∧
  elimination_count lcv_domains ∅ (adj_get triangle 1) <$> [3; 2; 1]%Z = [0; 1; 2] ∧
  ∃ values,
    order_domain_values 1 lcv_domains triangle ∅ = Return values ∧
    values ≡ₚ elements ({[1; 2; 3]}%Z : gset Z) ∧
    StronglySorted
      (λ x y, tuple_le
         (elimination_count lcv_domains ∅ (adj_get triangle 1) x, x)
         (elimination_count lcv_domains ∅ (adj_get triangle 1) y, y))
      values.
Proof.
  split; [vm_compute; reflexivity|]. split; [vm_compute; reflexivity|].
  refine (proj1 (order_domain_values_lcv 1 lcv_domains triangle ∅
                   {[1; 2; 3]}%Z _ _)).
  - vm_compute. reflexivity.
  - intros nb Hnb _. vm_compute in Hnb.
    apply elem_of_cons in Hnb as [->|Hnb]; [vm_compute; eauto|].
    apply elem_of_cons in Hnb as [->|Hnb]; [|by apply elem_of_nil in Hnb].
    vm_compute. eauto.
Defined.

(** * Further properties of the engine *)

(** ** Arc consistency *)

(** The arcs that a shrinking domain can make inconsistent are the ones
    [ac3] appends, but for the arc it has just revised against, which stays
    consistent. *)
Lemma ac3_loop_arc_consistent adj q s s' :
  (∀ u v, v ∈ adj_get adj u → u ∈ adj_get adj v) →
  (∀ Xi Xj, Xj ∈ adj_get adj Xi →
     (Xi, Xj) ∈ q ∨ arc_consistent (domains s) Xi Xj) →
  ac3 adj q s = (Return true, s') →
  ∀ Xi Xj, Xj ∈ adj_get adj Xi → arc_consistent (domains s') Xi Xj.
Proof.
  intros Hsym Hq Heq.
  refine (ac3_rule adj
    (λ q s1, ∀ Xi Xj, Xj ∈ adj_get adj Xi →
       (Xi, Xj) ∈ q ∨ arc_consistent (domains s1) Xi Xj)
    (λ r, ∀ s', r = (Return true, s') →
       ∀ Xi Xj, Xj ∈ adj_get adj Xi → arc_consistent (domains s') Xi Xj)
    _ _ _ _ q s Hq s' Heq).
  - intros s0 Hinv s1 [= <-] Xi Xj Hedge.
    by destruct (Hinv Xi Xj Hedge) as [?%elem_of_nil|].
  - done.
  - intros Xi0 Xj0 q0 s0 domX domY Hinv HX HY Hkeep A B Hedge.
    destruct (Hinv A B Hedge) as [[[= -> ->]|?]%elem_of_cons|?]; auto.
    right. intros dA x HA HB. simplify_eq. by apply Hkeep.
  - intros Xi0 Xj0 q0 s0 domX x Hinv HX HY Hx. simpl.
    case_decide as Hsz; [done|]. intros A B Hedge.
    assert (domX ∖ {[x]} ≠ ∅) as Hne.
    { intros Hempty. apply Hsz. by rewrite Hempty, size_empty. }
    destruct (decide (B = Xi0)) as [->|HB].
    + (* the domain of [B] is the one that shrank *)
      destruct (decide (A = Xj0)) as [->|HA].
      * right. intros dA y. rewrite lookup_insert_eq. intros HdA [= Hy].
        destruct (decide (Xi0 = Xj0)) as [<-|Hne'].
        -- simplify_eq. destruct Hne. set_solver.
        -- rewrite lookup_insert_ne in HdA by done. simplify_eq.
           assert (y ∈ domX ∖ {[x]}) by (rewrite Hy; set_solver). set_solver.
      * left. apply elem_of_app. right. apply elem_of_new_arcs.
        split_and!; [done..|]. by apply Hsym.
    + destruct (Hinv A B Hedge) as [[[= -> ->]|?]%elem_of_cons|Hcons].
      * right. intros dA y. rewrite lookup_insert_eq, lookup_insert_ne by done.
        intros [= <-] HY'. simplify_eq. set_solver.
      * left. apply elem_of_app. by left.
      * right. intros dA y. rewrite (lookup_insert_ne _ Xi0 B) by done.
        destruct (decide (Xi0 = A)) as [<-|HA].
        -- rewrite lookup_insert_eq. intros [= <-] HY'.
           specialize (Hcons domX y HX HY'). set_solver.
        -- rewrite lookup_insert_ne by done. apply Hcons.
Qed.

(** X1. [ac3] reaches arc consistency. With a symmetric adjacency, when every
    arc along an edge is in the queue or consistent already, a run that
    answers [True] leaves every arc along an edge consistent. *)
Theorem ac3_arc_consistent adj q s s' :
  (∀ u v, v ∈ adj_get adj u → u ∈ adj_get adj v) →
  (∀ Xi Xj, Xj ∈ adj_get adj Xi →
     (Xi, Xj) ∈ q ∨ arc_consistent (domains s) Xi Xj) →
  ac3 adj q s = (Return true, s') →
  ∀ Xi Xj, Xj ∈ adj_get adj Xi → arc_consistent (domains s') Xi Xj.
Proof. apply ac3_loop_arc_consistent. Qed.

Lemma ac3_arc_consistent_witness :
  domains (ac3 triangle (initial_queue [1; 2; 3]%Z triangle) one_colored).2
  = {[1 := {[1]}; 2 := {[2; 3]}; 3 := {[2; 3]}]}%Z ∧
  arc_consistent
    (domains (ac3 triangle (initial_queue [1; 2; 3]%Z triangle) one_colored).2)
    2 1.
Proof.
  split; [vm_compute; reflexivity|].
  apply (ac3_arc_consistent triangle (initial_queue [1; 2; 3]%Z triangle)
           one_colored).
  - apply (adj_symmetric _ _ _ triangle_graph_input).
  - intros Xi Xj Hedge. left. apply elem_of_initial_queue. split; [|done].
    apply (adj_variables _ _ _ triangle_graph_input).
    unfold adj_get in Hedge. destruct (triangle !! Xi); [done|].
    by apply elem_of_nil in Hedge.
  - vm_compute. reflexivity.
  - unfold adj_get. rewrite triangle_lookup. simpl. left.
Defined.

(** X2. The search maintains arc consistency. In an arc-consistent store,
    after a variable is forced to one of its colours, the propagation seeded
    with the arcs [(nb, var)] of its neighbours alone, when it answers
    [True], leaves the store arc consistent again. *)
Theorem assignment_keeps_arc_consistency adj s var value dvar s1 s2 :
  (∀ u v, v ∈ adj_get adj u → u ∈ adj_get adj v) →
  (∀ Xi Xj, Xj ∈ adj_get adj Xi → arc_consistent (domains s) Xi Xj) →
  domains s !! var = Some dvar →
  value ∈ dvar →
  force var value s = (Return (), s1) →
  ac3 adj (assign_queue adj var) s1 = (Return true, s2) →
  ∀ Xi Xj, Xj ∈ adj_get adj Xi → arc_consistent (domains s2) Xi Xj.
Proof.
  intros Hsym Hcons Hvar Hvalue Hforce Hac3.
  destruct (force_spec var value s dvar Hvar Hvalue) as (s1' & Hforce' & Hs1).
  rewrite Hforce in Hforce'. injection Hforce' as <-.
  apply (ac3_loop_arc_consistent adj (assign_queue adj var) s1 s2 Hsym); [|done].
  intros Xi Xj Hedge. destruct (decide (Xj = var)) as [->|Hne].
  - left. apply elem_of_assign_queue. split; [done|]. by apply Hsym.
  - right. intros dXi x. rewrite Hs1, (lookup_insert_ne _ var Xj) by done.
    destruct (decide (var = Xi)) as [<-|Hne'].
    + rewrite lookup_insert_eq. intros [= <-] HXj.
      specialize (Hcons var Xj Hedge dvar x Hvar HXj). set_solver.
    + rewrite lookup_insert_ne by done. by apply Hcons.
Qed.

Lemma assignment_keeps_arc_consistency_witness :
  arc_consistent
    (domains (ac3 triangle (assign_queue triangle 1) (force 1 1 three_colors).2).2)
    2 3.
Proof.
  apply (assignment_keeps_arc_consistency triangle three_colors 1 1
           (list_to_set (seqZ 1 3)) (force 1 1 three_colors).2).
  - apply (adj_symmetric _ _ _ triangle_graph_input).
  - intros Xi Xj _ dXi x _ HXj.
    assert (size <$> (domains three_colors !! Xj) = Some 1) as Hsz
      by (rewrite HXj; exact (f_equal Some (size_singleton x))).
    simpl in Hsz. rewrite initial_domains_lookup in Hsz.
    case_decide; simpl in Hsz; [|done]. by vm_compute in Hsz.
  - vm_compute. reflexivity.
  - vm_compute. set_solver.
  - vm_compute. reflexivity.
  - vm_compute. reflexivity.
  - unfold adj_get. rewrite triangle_lookup. simpl. right. left.
Defined.

(** X3. In a store where the arcs of the queue are between known variables
    and consistent, [ac3] answers [True] and changes nothing. *)
Theorem ac3_consistent_noop adj q s :
  (∀ Xi Xj, (Xi, Xj) ∈ q →
     is_Some (domains s !! Xi) ∧ is_Some (domains s !! Xj) ∧
     arc_consistent (domains s) Xi Xj) →
  ac3 adj q s = (Return true, s).
Proof.
  intros Hq.
  refine (ac3_rule adj
    (λ q s1, s1 = s ∧ ∀ Xi Xj, (Xi, Xj) ∈ q →
       is_Some (domains s !! Xi) ∧ is_Some (domains s !! Xj) ∧
       arc_consistent (domains s) Xi Xj)
    (λ r, r = (Return true, s)) _ _ _ _ q s _); [| | | |done].
  - by intros s0 [-> _].
  - intros Xi Xj q0 s0 [-> Hq0] Hno.
    destruct (Hq0 Xi Xj) as ([? HXi] & [? HXj] & _); [left|].
    destruct Hno; congruence.
  - intros Xi Xj q0 s0 domX domY [-> Hq0] _ _ _. split; [done|].
    intros ?? ?. apply Hq0. by right.
  - intros Xi Xj q0 s0 domX x [-> Hq0] HX HY Hx.
    destruct (Hq0 Xi Xj) as (_ & _ & Hcons); [left|].
    by destruct (Hcons domX x HX HY).
Qed.

Lemma ac3_consistent_noop_witness :
  ac3 triangle [(1, 2)]%Z three_vertices = (Return true, three_vertices).
Proof.
  apply (ac3_consistent_noop triangle [(1, 2)]%Z three_vertices).
  intros Xi Xj [= -> ->]%list_elem_of_singleton. split_and!.
  - vm_compute. eauto.
  - vm_compute. eauto.
  - intros dXi x _ HXj.
    assert (size <$> (domains three_vertices !! 2%Z) = Some 1) as Hsz
      by (rewrite HXj; exact (f_equal Some (size_singleton x))).
    by vm_compute in Hsz.
Defined.

(** ** [revise] *)

(** X4. [revise] is idempotent: a second call on the store the first one
    left removes nothing and returns [False]. *)
Theorem revise_idempotent X Y s b s1 :
  revise X Y s = (Return b, s1) →
  revise X Y s1 = (Return false, s1).
Proof.
  intros Heq.
  destruct (revise_cases X Y s) as [|domX domY HX HY Hkeep|domX x HX HY Hx];
    simplify_eq.
  - destruct (revise_cases X Y s1) as [[Hno|Hno]|?|domX' y HX' HY' Hy];
      [congruence..|done|].
    simplify_eq. by destruct (Hkeep y).
  - set (s1 := Store (<[X := domX ∖ {[x]}]> (domains s)) (trail s ++ [(X, x)])).
    destruct (revise_cases X Y s1) as [[Hno|Hno]|?|domX' y HX' HY' Hy]; [..|done|];
      simpl in *.
    + by rewrite lookup_insert_eq in Hno.
    + destruct (decide (X = Y)) as [->|Hne];
        [by rewrite lookup_insert_eq in Hno|].
      rewrite lookup_insert_ne in Hno by done. congruence.
    + rewrite lookup_insert_eq in HX'. simplify_eq.
      destruct (decide (X = Y)) as [->|Hne].
      * rewrite lookup_insert_eq in HY'. simplify_eq.
        assert (y ∈ ({[x]} : gset Z) ∖ {[x]}) by (rewrite HY'; set_solver).
        set_solver.
      * rewrite lookup_insert_ne in HY' by done. simplify_eq. set_solver.
Qed.

Lemma revise_idempotent_witness :
  revise 1 2 (revise 1 2 clash).2 = (Return false, (revise 1 2 clash).2).
Proof.
  apply (revise_idempotent 1 2 clash true). vm_compute. reflexivity.
Defined.

(** X5. [revise] raises [KeyError] exactly when one of its two variables is
    unknown to the store, and then leaves the store as it was; in every case
    it changes no domain but that of [X], and appends at most one entry to
    the trail. *)
Theorem revise_frame X Y s :
  (domains s !! X = None ∨ domains s !! Y = None ↔
   ∃ e, (revise X Y s).1 = Raise e) ∧
  (∀ e, (revise X Y s).1 = Raise e → revise X Y s = (Raise KeyError, s)) ∧
  (∀ v, v ≠ X → domains (revise X Y s).2 !! v = domains s !! v) ∧
  length (trail (revise X Y s).2) ≤ S (length (trail s)).
Proof.
  destruct (revise_cases X Y s) as [Hno|domX domY HX HY Hkeep|domX x HX HY Hx];
    simpl.
  - split_and!; [|done..|lia]. split; eauto.
  - split_and!; [|done..|lia]. split; [intros [?|?]; congruence|by intros [? ?]].
  - split_and!; [|done| |].
    + split; [intros [?|?]; congruence|by intros [? ?]].
    + intros v Hv. by rewrite lookup_insert_ne.
    + rewrite length_app. simpl. lia.
Qed.

(** ** [backtrack] *)

(** X6. [backtrack] terminates: the recursion is never deeper than the
    number of unassigned variables, so that one unit of fuel more than that
    number gives the answer, and so does any larger amount. *)
Theorem backtrack_terminates adj s a :
  dom a ⊆ dom (domains s) →
  ∃ r, r.1.1 ≠ OutOfFuel ∧
    ∀ n, size (dom (domains s) ∖ dom a) < n → backtrack n adj s a = r.
Proof.
  intros Hdom. set (n0 := S (size (dom (domains s) ∖ dom a))).
  assert ((backtrack n0 adj s a).1.1 ≠ OutOfFuel) as Hr.
  { pose proof (backtrack_spec adj n0 s a Hdom) as Hspec.
    destruct (backtrack n0 adj s a) as [[[b|e|] s'] a']; [done..|].
    destruct Hspec. unfold n0. lia. }
  exists (backtrack n0 adj s a). split; [done|].
  intros n Hn. apply backtrack_more; [done|]. unfold n0. lia.
Qed.

Lemma backtrack_terminates_witness :
  ∃ r, r.1.1 ≠ OutOfFuel ∧
    ∀ n, size (dom (domains three_colors) ∖ dom (∅ : gmap Z Z)) < n →
      backtrack n triangle three_colors ∅ = r.
Proof.
  apply (backtrack_terminates triangle three_colors ∅).
  rewrite dom_empty_L. apply empty_subseteq.
Defined.

(** X7. [backtrack] undoes what it tried: when it answers [False] the
    domains, the trail and the assignment are exactly what they were at the
    call; and it answers [False] only when no proper colouring within the
    domains extends the assignment. *)
Theorem backtrack_failure_restores adj n s a s' a' :
  dom a ⊆ dom (domains s) →
  size (dom (domains s) ∖ dom a) < n →
  backtrack n adj s a = (Return false, s', a') →
  s' = s ∧ a' = a ∧
  ∀ m, proper adj m → fits m (domains s) → a ⊆ m → False.
Proof.
  intros Hdom Hn Heq. pose proof (backtrack_spec adj n s a Hdom Hn) as Hspec.
  rewrite Heq in Hspec. destruct Hspec as (-> & -> & Hno).
  split_and!; [done..|]. intros m ???. by apply (Hno m).
Qed.

Lemma backtrack_failure_restores_witness :
  backtrack 4 triangle three_vertices ∅ = (Return false, three_vertices, ∅).
Proof.
  assert (backtrack 4 triangle three_vertices ∅
          = (Return false, (backtrack 4 triangle three_vertices ∅).1.2,
             (backtrack 4 triangle three_vertices ∅).2)) as Heq
    by (vm_compute; reflexivity).
  destruct (backtrack_failure_restores triangle 4 three_vertices ∅ _ _
              ltac:(rewrite dom_empty_L; apply empty_subseteq)
              ltac:(vm_compute; lia) Heq) as (Hs & Ha & _).
  rewrite Heq. by rewrite Hs, Ha.
Defined.

(** X8. When [backtrack] answers [True], the assignment it leaves extends the
    one it was given and assigns every variable of the store; the domains
    have only shrunk; rolling the trail back to its old length gives the old
    store; and the invariant [consistent] of the search still holds. *)
Theorem backtrack_success adj n s a s' a' :
  dom a ⊆ dom (domains s) →
  size (dom (domains s) ∖ dom a) < n →
  backtrack n adj s a = (Return true, s', a') →
  a ⊆ a' ∧
  dom a' = dom (domains s) ∧
  (∀ v dv', domains s' !! v = Some dv' →
     ∃ dv, domains s !! v = Some dv ∧ dv' ⊆ dv) ∧
  restore_to (length (trail s)) s' = (Return (), s) ∧
  (consistent adj s a → consistent adj s' a').
Proof.
  intros Hdom Hn Heq. pose proof (backtrack_spec adj n s a Hdom Hn) as Hspec.
  rewrite Heq in Hspec. destruct Hspec as (Hfw & Hsub & Hdom' & Hcons).
  pose proof (forward_shrunk _ _ Hfw) as Hshr.
  split_and!; [done| | |by apply restore_to_forward|done].
  - by rewrite Hdom', (shrunk_dom _ _ Hshr).
  - intros v dv'. by apply shrunk_lookup.
Qed.

Lemma backtrack_success_witness :
  dom (backtrack 4 triangle three_colors ∅).2 = dom (domains three_colors).
Proof.
  refine (proj1 (proj2 (backtrack_success triangle 4 three_colors ∅
    (backtrack 4 triangle three_colors ∅).1.2
    (backtrack 4 triangle three_colors ∅).2 _ _ _))).
  - rewrite dom_empty_L. apply empty_subseteq.
  - vm_compute. lia.
  - vm_compute. reflexivity.
Defined.

(** ** [solve_graph_coloring] *)

Lemma valid_coloring_more_colors k k' variables adj m :
  (k ≤ k')%Z → valid_coloring k variables adj m → valid_coloring k' variables adj m.
Proof.
  intros Hk (Hdom & Hrange & Hproper). split_and!; [done| |done].
  intros v c Hv. specialize (Hrange v c Hv). lia.
Qed.

Lemma solve_graph_coloring_closed_returns k variables adj :
  closed adj (list_to_set variables) →
  (∃ m, solve_graph_coloring k variables adj = Return (Some m) ∧
        valid_coloring k variables adj m) ∨
  (solve_graph_coloring k variables adj = Return None ∧
   ∀ m, ¬ valid_coloring k variables adj m).
Proof.
  intros Hclosed. pose proof (solve_graph_coloring_spec k variables adj) as Hspec.
  destruct (solve_graph_coloring k variables adj) as [[m|]|e|]; [eauto|eauto|done..].
Qed.

(** X9. The solver decides colourability whenever the neighbours listed for
    the variables are variables, also with an adjacency that is not
    symmetric, with self-loops, or with [k ≤ 0]: within a depth of recursion
    greater than the number of variables it returns a valid colouring, or it
    returns the failure signal and there is none. Within a smaller depth it
    does the same or ends in [RecursionError]. *)
Theorem solve_graph_coloring_decides depth k variables adj :
  (∀ u v, u ∈ variables → v ∈ adj_get adj u → v ∈ variables) →
  (∃ m, solve_graph_coloring_within depth k variables adj = Return (Some m) ∧
        valid_coloring k variables adj m) ∨
  (solve_graph_coloring_within depth k variables adj = Return None ∧
   ∀ m, ¬ valid_coloring k variables adj m) ∨
  (solve_graph_coloring_within depth k variables adj = Raise RecursionError ∧
   depth ≤ size (list_to_set variables : gset Z)).
Proof.
  intros Hclosed.
  assert (closed adj (list_to_set variables)) as Hclosed'.
  { intros u v Hu%elem_of_list_to_set Hv. apply elem_of_list_to_set.
    by apply (Hclosed u v). }
  pose proof (solve_graph_coloring_closed_returns k variables adj Hclosed')
    as Hreturns.
  destruct (le_lt_dec depth (size (list_to_set variables : gset Z))) as [Hle|Hlt].
  - destruct (solve_within_cases depth k variables adj) as [Hrec|Heq]; [by auto|].
    rewrite Heq. tauto.
  - rewrite solve_within_enough by done. tauto.
Qed.

Lemma solve_graph_coloring_decides_witness :
  solve_graph_coloring_within 3 2 [1; 2]%Z loop_graph = Return None ∧
  ((∃ m, solve_graph_coloring_within 3 2 [1; 2]%Z loop_graph = Return (Some m) ∧
         valid_coloring 2 [1; 2]%Z loop_graph m) ∨
   (solve_graph_coloring_within 3 2 [1; 2]%Z loop_graph = Return None ∧
    ∀ m, ¬ valid_coloring 2 [1; 2]%Z loop_graph m) ∨
   (solve_graph_coloring_within 3 2 [1; 2]%Z loop_graph = Raise RecursionError ∧
    3 ≤ size (list_to_set [1; 2]%Z : gset Z))).
Proof.
  split; [vm_compute; reflexivity|].
  apply (solve_graph_coloring_decides 3 2 [1; 2]%Z loop_graph).
  intros u v _. unfold adj_get, loop_graph.
  destruct (decide (u = 1%Z)) as [->|Hne].
  - rewrite lookup_singleton_eq. simpl. set_solver.
  - rewrite lookup_singleton_ne by done. simpl. by intros ?%elem_of_nil.
Defined.

(** X10. A variable that is listed among its own neighbours is never
    coloured: the solver returns no mapping, whatever [k]. *)
Theorem solve_graph_coloring_self_loop k variables adj u :
  u ∈ variables →
  u ∈ adj_get adj u →
  ∀ m, solve_graph_coloring k variables adj ≠ Return (Some m).
Proof.
  intros Hu Hloop m Hsolve.
  pose proof (solve_graph_coloring_spec k variables adj) as Hspec.
  rewrite Hsolve in Hspec. destruct Hspec as (Hdom & _ & Hproper).
  assert (u ∈ dom m) as [c Hc]%elem_of_dom by (rewrite Hdom; set_solver).
  by apply (Hproper u u c c).
Qed.

Lemma solve_graph_coloring_self_loop_witness :
  solve_graph_coloring 2 [1; 2]%Z loop_graph ≠ Return (Some ∅).
Proof.
  apply (solve_graph_coloring_self_loop 2 [1; 2]%Z loop_graph 1).
  - set_solver.
  - vm_compute. set_solver.
Defined.

(** X11. More colours never hurt: with neighbours that are variables, an
    input the solver colours with [k] colours it also colours with any
    [k' ≥ k]. *)
Theorem solve_graph_coloring_more_colors k k' variables adj m :
  (∀ u v, u ∈ variables → v ∈ adj_get adj u → v ∈ variables) →
  (k ≤ k')%Z →
  solve_graph_coloring k variables adj = Return (Some m) →
  ∃ m', solve_graph_coloring k' variables adj = Return (Some m') ∧
        valid_coloring k' variables adj m'.
Proof.
  intros Hclosed Hk Hsolve.
  pose proof (solve_graph_coloring_spec k variables adj) as Hspec.
  rewrite Hsolve in Hspec. apply (valid_coloring_more_colors k k') in Hspec; [|done].
  destruct (solve_graph_coloring_closed_returns k' variables adj) as [?|[_ Hno]];
    [|done|by destruct (Hno m)].
  intros u v Hu%elem_of_list_to_set Hv. apply elem_of_list_to_set.
  by apply (Hclosed u v).
Qed.

Lemma solve_graph_coloring_more_colors_witness :
  ∃ m', solve_graph_coloring 4 [1; 2; 3; 4]%Z small_graph = Return (Some m') ∧
        valid_coloring 4 [1; 2; 3; 4]%Z small_graph m'.
Proof.
  apply (solve_graph_coloring_more_colors 3 4 [1; 2; 3; 4]%Z small_graph small_coloring).
  - intros u v Hu Hv.
    assert (closed small_graph (list_to_set [1; 2; 3; 4]%Z)) as Hclosed.
    { apply (solve_graph_coloring_closed 3 _ _ small_coloring). by vm_compute. }
    apply (elem_of_list_to_set (C:=gset Z)), (Hclosed u v); [|done].
    by apply elem_of_list_to_set.
  - lia.
  - vm_compute. reflexivity.
Defined.



(** ** The rollback loop and the forcing *)

Lemma restore_loop_spec post pre d :
  (∀ v val, (v, val) ∈ post → is_Some (d !! v)) →
  ∃ d', restore_loop (length post) (Store d (pre ++ post)) = (Return (), Store d' pre) ∧
    ∀ v, d' !! v
         = (λ dv, dv ∪ list_to_set ((filter (λ e, e.1 = v) post).*2)) <$> d !! v.
Proof.
  revert d. induction post as [|[u x] post IH] using rev_ind; intros d Hknown.
  - exists d. rewrite app_nil_r. split; [done|]. intros v.
    rewrite filter_nil. simpl. destruct (d !! v) as [dv|]; simpl; [|done].
    f_equal. set_solver.
  - rewrite length_app, Nat.add_comm. simpl.
    rewrite app_assoc, reverse_snoc, reverse_involutive.
    destruct (Hknown u x) as [du Hu]; [set_solver|]. rewrite Hu.
    assert (∀ v, (filter (λ e : Z * Z, e.1 = v) (post ++ [(u, x)])).*2
      = (filter (λ e : Z * Z, e.1 = v) post).*2 ++ (if decide (u = v) then [x] else []))
      as Hfilter.
    { intros v. rewrite filter_app, fmap_app, filter_cons, filter_nil. simpl.
      by case_decide. }
    case_decide as Hx.
    + destruct (IH d) as (d' & Heq & Hd'); [intros ???; apply (Hknown v val); set_solver|].
      exists d'. split; [done|]. intros v. rewrite Hd', Hfilter.
      destruct (decide (u = v)) as [<-|Hne].
      * rewrite Hu. simpl. f_equal. rewrite list_to_set_app_L. set_solver.
      * by rewrite app_nil_r.
    + destruct (IH (<[u := du ∪ {[x]}]> d)) as (d' & Heq & Hd').
      { intros v val Hin. apply lookup_insert_is_Some'. right.
        apply (Hknown v val). set_solver. }
      exists d'. split; [done|]. intros v. rewrite Hd', Hfilter.
      destruct (decide (u = v)) as [<-|Hne].
      * rewrite lookup_insert_eq, Hu. simpl. f_equal.
        rewrite list_to_set_app_L. set_solver.
      * by rewrite lookup_insert_ne, app_nil_r.
Qed.

(** X13. The rollback loop on any store and mark, when the entries above the
    mark name variables of the store: it cuts the trail down to its first
    [mark] entries, adds to each domain the values that the cut entries name
    for it, and removes nothing. *)
Theorem restore_to_spec mark s :
  (∀ v val, (v, val) ∈ drop mark (trail s) → is_Some (domains s !! v)) →
  ∃ s', restore_to mark s = (Return (), s') ∧
    trail s' = take mark (trail s) ∧
    ∀ v, domains s' !! v
         = (λ dv, dv ∪ list_to_set
                    ((filter (λ e, e.1 = v) (drop mark (trail s))).*2))
           <$> domains s !! v.
Proof.
  intros Hknown.
  destruct (restore_loop_spec (drop mark (trail s)) (take mark (trail s))
              (domains s) Hknown) as (d' & Heq & Hd').
  exists (Store d' (take mark (trail s))). split_and!; [|done..].
  unfold restore_to. rewrite <-length_drop, <-Heq, take_drop. by destruct s.
Qed.

Lemma restore_to_spec_witness :
  ∃ s', restore_to 1 (revise 2 1 (force 1 1 three_colors).2).2 = (Return (), s') ∧
    trail s' = take 1 (trail (revise 2 1 (force 1 1 three_colors).2).2) ∧
    ∀ v, domains s' !! v
         = (λ dv, dv ∪ list_to_set
              ((filter (λ e, e.1 = v)
                  (drop 1 (trail (revise 2 1 (force 1 1 three_colors).2).2))).*2))
           <$> domains (revise 2 1 (force 1 1 three_colors).2).2 !! v.
Proof.
  apply (restore_to_spec 1 (revise 2 1 (force 1 1 three_colors).2).2).
  intros v val Hin. vm_compute in Hin.
  repeat (apply elem_of_cons in Hin as [[= -> ->]|Hin]; [vm_compute; eauto|]).
  by apply elem_of_nil in Hin.
Defined.

(** X14. Forcing a variable of the store never raises: the domain keeps the
    value if it held it and nothing else, every other colour it held is
    appended to the trail once, and the other domains are as they were. *)
Theorem force_effect var value s dom :
  domains s !! var = Some dom →
  ∃ s' others,
    force var value s = (Return (), s') ∧
    domains s' = <[var := dom ∩ {[value]}]> (domains s) ∧
    trail s' = trail s ++ ((λ v, (var, v)) <$> others) ∧
    NoDup others ∧
    ∀ v, v ∈ others ↔ v ∈ dom ∧ v ≠ value.
Proof.
  intros Hvar. unfold force. rewrite Hvar.
  set (others := filter (λ v, v ≠ value) (elements dom)).
  assert (∀ v, v ∈ others ↔ v ∈ dom ∧ v ≠ value) as Hothers.
  { intros v. unfold others. rewrite list_elem_of_filter, elem_of_elements. tauto. }
  assert (NoDup others) as Hnd by apply NoDup_filter, NoDup_elements.
  rewrite (remove_each_spec var others s dom) by (done || (intros ? ?%Hothers; tauto)).
  eexists _, others. split_and!; [done| |done..]. simpl. f_equal.
  apply set_eq. intros y.
  rewrite elem_of_difference, elem_of_intersection, elem_of_list_to_set, Hothers,
    elem_of_singleton.
  destruct (decide (y = value)); tauto.
Qed.

Lemma force_effect_witness :
  ∃ s' others,
    force 1 7 three_colors = (Return (), s') ∧
    domains s' = <[1%Z := list_to_set (seqZ 1 3) ∩ {[7%Z]}]> (domains three_colors) ∧
    trail s' = trail three_colors ++ ((λ v, (1%Z, v)) <$> others) ∧
    NoDup others ∧
    ∀ v, v ∈ others ↔ v ∈ (list_to_set (seqZ 1 3) : gset Z) ∧ v ≠ 7%Z.
Proof.
  apply (force_effect 1 7 three_colors). vm_compute. reflexivity.
Defined.

(** ** Exceptions of [order_domain_values] *)

Lemma eliminated_Raise d a val nbs acc e :
  eliminated d a val nbs acc = Raise e ↔
  e = KeyError ∧ ∃ nb, nb ∈ nbs ∧ a !! nb = None ∧ d !! nb = None.
Proof.
  revert acc. induction nbs as [|nb nbs IH]; intros acc; simpl.
  - split; [done|]. by intros (_ & ? & ?%elem_of_nil & _).
  - destruct (a !! nb) eqn:Ha; [|destruct (d !! nb) eqn:Hd].
    + rewrite IH. split; intros (-> & nb' & Hin & ? & ?); (split; [done|]);
        exists nb'; [set_solver|].
      apply elem_of_cons in Hin as [->|?]; [congruence|done].
    + rewrite IH. split; intros (-> & nb' & Hin & ? & ?); (split; [done|]);
        exists nb'; [set_solver|].
      apply elem_of_cons in Hin as [->|?]; [congruence|done].
    + split; [intros [= <-]|by intros [-> _]]. split; [done|].
      exists nb. split_and!; [left|done..].
Qed.

Lemma count_values_Raise d a nbs vals e :
  count_values d a nbs vals = Raise e ↔
  e = KeyError ∧ vals ≠ [] ∧ ∃ nb, nb ∈ nbs ∧ a !! nb = None ∧ d !! nb = None.
Proof.
  induction vals as [|val vals IH]; simpl; [naive_solver|].
  pose proof (eliminated_Raise d a val nbs 0) as Hel.
  pose proof (eliminated_not_out_of_fuel d a val nbs 0) as Hfuel.
  destruct (eliminated d a val nbs 0) as [n|e'|]; [| |done].
  - assert (¬ ∃ nb, nb ∈ nbs ∧ a !! nb = None ∧ d !! nb = None) as Hno.
    { intros Hnb. by pose proof (proj2 (Hel KeyError) (conj eq_refl Hnb)). }
    pose proof (count_values_not_out_of_fuel d a nbs vals) as Hfuel'.
    destruct (count_values d a nbs vals) as [counts|e'|]; [| |done].
    + split; [done|]. by intros (_ & _ & Hnb).
    + split; [intros Heq; by destruct (proj1 IH Heq) as (_ & _ & Hnb)|].
      by intros (_ & _ & Hnb).
  - destruct (proj1 (Hel e') eq_refl) as [-> Hnb].
    split; [by intros [= <-]|by intros (-> & _)].
Qed.

(** X15. [order_domain_values] raises exactly in two cases, both a
    [KeyError]: the variable is unknown to the store; or its domain is not
    empty and one of its unassigned neighbours is unknown to the store. With
    an empty domain the neighbours are not looked up. *)
Theorem order_domain_values_raises var d adj a e :
  order_domain_values var d adj a = Raise e ↔
  e = KeyError ∧
  (d !! var = None ∨
   ∃ dom, d !! var = Some dom ∧ dom ≠ ∅ ∧
     ∃ nb, nb ∈ adj_get adj var ∧ a !! nb = None ∧ d !! nb = None).
Proof.
  unfold order_domain_values. destruct (d !! var) as [dom|] eqn:Hvar.
  - pose proof (count_values_Raise d a (adj_get adj var) (sorted dom)) as Hc.
    assert (sorted dom ≠ [] ↔ dom ≠ ∅) as Hne.
    { split; intros H Heq; apply H.
      - subst dom. unfold sorted. by rewrite elements_empty.
      - apply leibniz_equiv, elements_empty_iff, Permutation_nil_r.
        by rewrite <-sorted_Permutation, Heq. }
    pose proof (count_values_not_out_of_fuel d a (adj_get adj var) (sorted dom))
      as Hfuel.
    destruct (count_values d a (adj_get adj var) (sorted dom)) as [counts|e'|];
      [| |done].
    + split; [done|]. intros (-> & [?|(dom' & ? & Hne' & Hnb)]); [done|].
      simplify_eq. apply Hne in Hne'.
      by pose proof (proj2 (Hc KeyError) (conj eq_refl (conj Hne' Hnb))).
    + destruct (proj1 (Hc e') eq_refl) as (-> & Hs%Hne & Hnb).
      split; [intros [= <-]|by intros (-> & _)].
      split; [done|]. right. eauto.
  - split; [intros [= <-]; auto|by intros [-> _]].
Qed.

(** * The input and the output *)

(** ** [sorted] *)

Lemma elem_of_sorted (X : gset Z) x : x ∈ sorted X ↔ x ∈ X.
Proof. by rewrite sorted_Permutation, elem_of_elements. Qed.

Lemma NoDup_sorted (X : gset Z) : NoDup (sorted X).
Proof. rewrite sorted_Permutation. apply NoDup_elements. Qed.

Lemma StronglySorted_le_lt (l : list Z) :
  StronglySorted Z.le l → NoDup l → StronglySorted Z.lt l.
Proof.
  induction 1 as [|x l Hl IH Hx]; intros Hnd; constructor.
  - apply IH. by apply NoDup_cons in Hnd as [_ ?].
  - apply NoDup_cons in Hnd as [Hnin _].
    rewrite Forall_forall in Hx |- *. intros y Hy.
    specialize (Hx y Hy). assert (x ≠ y) by (by intros ->). lia.
Qed.

(** [sorted] gives an increasing list without repetition. *)
Lemma sorted_increasing (X : gset Z) : StronglySorted Z.lt (sorted X).
Proof.
  apply StronglySorted_le_lt; [|apply NoDup_sorted].
  apply StronglySorted_merge_sort; apply _.
Qed.

(** ** The loop over the lines *)

Lemma norm_edge_cases u v :
  norm_edge u v = (u, v) ∧ (u ≤ v)%Z ∨ norm_edge u v = (v, u) ∧ (v < u)%Z.
Proof. unfold norm_edge. case_decide; [left|right]; split; (done || lia). Qed.

Lemma read_lines_None lines k0 E0 V0 :
  read_lines lines k0 E0 V0 = None ↔
  Colors None ∈ lines ∨ ∃ u, Pair u u ∈ lines.
Proof.
  revert k0 E0 V0. induction lines as [|[|[k'|]|u v] lines IH]; intros k0 E0 V0; simpl.
  - split; [done|]. intros [?%elem_of_nil|[? ?%elem_of_nil]]; done.
  - rewrite IH. split; (intros [?|[u ?]]; [left|right; exists u]); set_solver.
  - rewrite IH. split; (intros [?|[u ?]]; [left|right; exists u]); set_solver.
  - split; [left; left|done].
  - case_decide as Huv.
    + subst. split; [right; exists v; left|done].
    + rewrite IH. split; (intros [?|[w Hw]]; [left|right; exists w]); [set_solver..|].
      apply elem_of_cons in Hw as [[= -> ->]|?]; done.
Qed.

Lemma exists_pair_skip (P : Z → Z → Prop) l lines :
  (∀ u v, l ≠ Pair u v) →
  (∃ u v, Pair u v ∈ l :: lines ∧ P u v) ↔ ∃ u v, Pair u v ∈ lines ∧ P u v.
Proof.
  intros Hl. split; intros (u & v & Hin & HP); exists u, v; (split; [|done]).
  - apply elem_of_cons in Hin as [<-|Hin]; [by destruct (Hl u v)|done].
  - by right.
Qed.

Lemma exists_pair_here (P : Z → Z → Prop) u v lines :
  (∃ u' v', Pair u' v' ∈ Pair u v :: lines ∧ P u' v') ↔
  P u v ∨ ∃ u' v', Pair u' v' ∈ lines ∧ P u' v'.
Proof.
  split.
  - intros (u' & v' & [[= -> ->]|Hin]%elem_of_cons & HP); [by left|right; eauto].
  - intros [HP|(u' & v' & Hin & HP)]; [exists u, v|exists u', v'];
      (split; [|done]); [left|by right].
Qed.

Lemma read_lines_Some lines k0 E0 V0 k E V :
  read_lines lines k0 E0 V0 = Some (k, E, V) →
  (∀ e, e ∈ E ↔ e ∈ E0 ∨ ∃ u v, Pair u v ∈ lines ∧ e = norm_edge u v) ∧
  (∀ x, x ∈ V ↔ x ∈ V0 ∨ ∃ u v, Pair u v ∈ lines ∧ (x = u ∨ x = v)) ∧
  (k = k0 ∧ (∀ k', Colors (Some k') ∉ lines) ∨
   ∃ k' l1 l2, k = Some k' ∧ lines = l1 ++ Colors (Some k') :: l2 ∧
     ∀ k'', Colors (Some k'') ∉ l2).
Proof.
  revert k0 E0 V0.
  induction lines as [|[|[k'|]|u v] lines IH]; intros k0 E0 V0 Heq; simpl in Heq.
  - simplify_eq. split_and!.
    + intros e. split; [by left|]. by intros [?|(? & ? & ?%elem_of_nil & _)].
    + intros x. split; [by left|]. by intros [?|(? & ? & ?%elem_of_nil & _)].
    + left. split; [done|]. intros ?. apply not_elem_of_nil.
  - destruct (IH _ _ _ Heq) as (HE & HV & Hk). split_and!.
    + intros e. by rewrite HE, exists_pair_skip.
    + intros x. by rewrite HV, exists_pair_skip.
    + destruct Hk as [[-> Hno]|(k' & l1 & l2 & -> & -> & Hno)].
      * left. split; [done|]. intros k'. rewrite not_elem_of_cons. by split.
      * right. exists k', (Ignored :: l1), l2. by split.
  - destruct (IH _ _ _ Heq) as (HE & HV & Hk). split_and!.
    + intros e. by rewrite HE, exists_pair_skip.
    + intros x. by rewrite HV, exists_pair_skip.
    + right. destruct Hk as [[-> Hno]|(k'' & l1 & l2 & -> & -> & Hno)].
      * by exists k', [], lines.
      * by exists k'', (Colors (Some k') :: l1), l2.
  - done.
  - case_decide as Huv; [done|]. destruct (IH _ _ _ Heq) as (HE & HV & Hk).
    split_and!.
    + intros e. rewrite HE, exists_pair_here, elem_of_union, elem_of_singleton.
      tauto.
    + intros x. rewrite HV, exists_pair_here, !elem_of_union, !elem_of_singleton.
      destruct (norm_edge_cases u v) as [[-> _]|[-> _]]; simpl; tauto.
    + destruct Hk as [[-> Hno]|(k' & l1 & l2 & -> & -> & Hno)].
      * left. split; [done|]. intros k'. rewrite not_elem_of_cons. by split.
      * right. exists k', (Pair u v :: l1), l2. by split.
Qed.

(** ** The adjacency lists *)

Lemma adj_append_lookup u v adj w :
  adj_append u v adj !! w
  = if decide (u = w) then Some (adj_get adj u ++ [v]) else adj !! w.
Proof. unfold adj_append. by rewrite lookup_insert. Qed.

Lemma elem_of_adj_append u v adj w x :
  x ∈ adj_get (adj_append u v adj) w ↔ x ∈ adj_get adj w ∨ (u = w ∧ x = v).
Proof.
  unfold adj_get at 1. rewrite adj_append_lookup. case_decide as Hw; simpl.
  - subst. rewrite elem_of_app, list_elem_of_singleton. tauto.
  - tauto.
Qed.

Lemma is_Some_adj_append u v adj w :
  is_Some (adj_append u v adj !! w) ↔ is_Some (adj !! w) ∨ u = w.
Proof.
  rewrite adj_append_lookup. case_decide; [|tauto].
  split; [by right|by eauto].
Qed.

Lemma elem_of_foldl_adj (L : list (Z * Z)) adj0 w x :
  x ∈ adj_get
        (foldl (λ adj uv, adj_append uv.2 uv.1 (adj_append uv.1 uv.2 adj)) adj0 L) w
  ↔ x ∈ adj_get adj0 w ∨ (w, x) ∈ L ∨ (x, w) ∈ L.
Proof.
  revert adj0. induction L as [|[u v] L IH]; intros adj0; simpl.
  - rewrite !elem_of_nil. tauto.
  - rewrite IH, !elem_of_adj_append, !elem_of_cons. simpl.
    split; [intros [[[?|[-> ->]]|[-> ->]]|[?|?]]|intros [?|[[[= -> ->]|?]|[[= -> ->]|?]]]];
      tauto.
Qed.

Lemma is_Some_foldl_adj (L : list (Z * Z)) adj0 w :
  is_Some
    (foldl (λ adj uv, adj_append uv.2 uv.1 (adj_append uv.1 uv.2 adj)) adj0 L !! w)
  ↔ is_Some (adj0 !! w) ∨ ∃ x, (w, x) ∈ L ∨ (x, w) ∈ L.
Proof.
  revert adj0. induction L as [|[u v] L IH]; intros adj0; simpl.
  - split; [by left|]. intros [?|(x & [?%elem_of_nil|?%elem_of_nil])]; done.
  - rewrite IH, !is_Some_adj_append. simpl. split.
    + intros [[[?|<-]|<-]|(x & Hx)]; [by left|right..].
      * exists v. left. left.
      * exists u. right. left.
      * exists x. destruct Hx; [left|right]; by right.
    + intros [?|(x & [[[= -> ->]|?]%elem_of_cons|[[= -> ->]|?]%elem_of_cons])];
        [tauto|tauto|right; eauto|tauto|right; eauto].
Qed.

Lemma elem_of_build_adj (E : gset (Z * Z)) w x :
  x ∈ adj_get (build_adj E) w ↔ (w, x) ∈ E ∨ (x, w) ∈ E.
Proof.
  unfold build_adj, adj_get at 1. rewrite lookup_fmap.
  pose proof (elem_of_foldl_adj (elements E) ∅ w x) as Hraw.
  unfold adj_get at 1 2 in Hraw. rewrite lookup_empty, !elem_of_elements in Hraw.
  simpl in Hraw. rewrite elem_of_nil in Hraw.
  destruct (foldl _ ∅ (elements E) !! w) as [nbs|]; simpl in *.
  - rewrite elem_of_sorted, elem_of_list_to_set. tauto.
  - tauto.
Qed.

Lemma is_Some_build_adj (E : gset (Z * Z)) w :
  is_Some (build_adj E !! w) ↔ ∃ x, (w, x) ∈ E ∨ (x, w) ∈ E.
Proof.
  unfold build_adj. rewrite lookup_fmap, fmap_is_Some, is_Some_foldl_adj.
  rewrite lookup_empty. split.
  - intros [[? ?]|(x & Hx)]; [done|]. exists x. by rewrite !elem_of_elements in Hx.
  - intros (x & Hx). right. exists x. by rewrite !elem_of_elements.
Qed.

Lemma build_adj_increasing (E : gset (Z * Z)) w :
  StronglySorted Z.lt (adj_get (build_adj E) w).
Proof.
  unfold build_adj, adj_get. rewrite lookup_fmap.
  destruct (foldl _ ∅ (elements E) !! w) as [nbs|]; simpl;
    [apply sorted_increasing|constructor].
Qed.

(** ** [parse_input] *)

Lemma parse_input_Some lines k variables adj :
  parse_input lines = Some (k, variables, adj) →
  ∃ E V, read_lines lines None ∅ ∅ = Some (Some k, E, V) ∧
         variables = sorted V ∧ adj = build_adj E.
Proof.
  unfold parse_input.
  destruct (read_lines lines None ∅ ∅) as [[[[k'|] E] V]|]; [|done..].
  intros [= <- <- <-]. eauto.
Qed.

(** What the parsed graph holds, in terms of the lines. *)
Lemma parse_input_lines lines k variables adj :
  parse_input lines = Some (k, variables, adj) →
  (∃ l1 l2, lines = l1 ++ Colors (Some k) :: l2 ∧ ∀ k', Colors (Some k') ∉ l2) ∧
  (∀ u v, v ∈ adj_get adj u ↔ Pair u v ∈ lines ∨ Pair v u ∈ lines) ∧
  (∀ u, u ∈ variables ↔ ∃ v, Pair u v ∈ lines ∨ Pair v u ∈ lines) ∧
  (∀ u, is_Some (adj !! u) ↔ ∃ v, Pair u v ∈ lines ∨ Pair v u ∈ lines) ∧
  (∀ u, Pair u u ∉ lines).
Proof.
  intros (E & V & Hread & -> & ->)%parse_input_Some.
  assert (∀ u, Pair u u ∉ lines) as Hloop.
  { intros u Hu. assert (read_lines lines None ∅ ∅ = None) as Hnone
      by (apply read_lines_None; eauto).
    congruence. }
  destruct (read_lines_Some _ _ _ _ _ _ _ Hread) as (HE & HV & Hk).
  assert (∀ u v, (u, v) ∈ E ∨ (v, u) ∈ E ↔ Pair u v ∈ lines ∨ Pair v u ∈ lines)
    as Hedge.
  { intros u v. rewrite !HE. split.
    - intros [[?%elem_of_empty|(p & q & Hin & Heq)]|[?%elem_of_empty|(p & q & Hin & Heq)]];
        try done;
        destruct (norm_edge_cases p q) as [[Hn _]|[Hn _]]; rewrite Hn in Heq;
        simplify_eq; tauto.
    - intros [Hin|Hin].
      + destruct (norm_edge_cases u v) as [[Hn _]|[Hn _]]; [left|right]; right;
          exists u, v; by rewrite Hn.
      + destruct (norm_edge_cases v u) as [[Hn _]|[Hn _]]; [right|left]; right;
          exists v, u; by rewrite Hn. }
  split_and!; [|..|done].
  - destruct Hk as [[[=] _]|(k' & l1 & l2 & [= <-] & ? & ?)]. eauto.
  - intros u v. by rewrite elem_of_build_adj.
  - intros u. rewrite elem_of_sorted, HV. split.
    + intros [?%elem_of_empty|(p & q & Hin & [-> | ->])]; [done|eauto..].
    + intros (v & [Hin|Hin]); right; eauto.
  - intros u. rewrite is_Some_build_adj. split; intros (v & Hv); exists v; by apply Hedge.
Qed.

(** X16. What [parse_input] returns is a well-formed graph: the variables
    are in increasing order without repetition, the adjacency has exactly
    the variables as keys, every adjacency list is increasing without
    repetition and not empty, names variables only and never the vertex
    itself, and the adjacency is symmetric. *)
Theorem parse_input_well_formed lines k variables adj :
  parse_input lines = Some (k, variables, adj) →
  StronglySorted Z.lt variables ∧
  (∀ u, is_Some (adj !! u) ↔ u ∈ variables) ∧
  (∀ u, StronglySorted Z.lt (adj_get adj u)) ∧
  (∀ u, u ∈ variables → adj_get adj u ≠ []) ∧
  (∀ u v, u ∈ variables → v ∈ adj_get adj u → v ∈ variables) ∧
  (∀ u, u ∉ adj_get adj u) ∧
  (∀ u v, v ∈ adj_get adj u → u ∈ adj_get adj v).
Proof.
  intros Hparse.
  destruct (parse_input_lines _ _ _ _ Hparse) as (_ & Hadj & Hvars & Hkeys & Hloop).
  destruct (parse_input_Some _ _ _ _ Hparse) as (E & V & _ & -> & ->).
  split_and!.
  - apply sorted_increasing.
  - intros u. by rewrite Hkeys, Hvars.
  - apply build_adj_increasing.
  - intros u (v & Hv)%Hvars Hnil. apply Hadj in Hv. rewrite Hnil in Hv.
    by apply elem_of_nil in Hv.
  - intros u v _ Hv%Hadj. apply Hvars. exists u. tauto.
  - intros u [Hu|Hu]%Hadj; by apply (Hloop u).
  - intros u v Hv%Hadj. apply Hadj. tauto.
Qed.

Lemma parse_input_well_formed_witness :
  StronglySorted Z.lt [1; 2; 3; 4]%Z ∧
  (∀ u v, v ∈ adj_get small_graph u → u ∈ adj_get small_graph v).
Proof.
  destruct (parse_input_well_formed small_lines 3 [1; 2; 3; 4]%Z small_graph)
    as (Hsorted & _ & _ & _ & _ & _ & Hsym).
  - vm_compute. reflexivity.
  - by split.
Defined.

(** X17. What [parse_input] reads: the number of colours is that of the last
    'colors=' line; [v] is a neighbour of [u] exactly when a line holds the
    pair [u, v] or the pair [v, u]; and the variables are the vertices that
    occur in a pair. *)
Theorem parse_input_reads lines k variables adj :
  parse_input lines = Some (k, variables, adj) →
  (∃ l1 l2, lines = l1 ++ Colors (Some k) :: l2 ∧ ∀ k', Colors (Some k') ∉ l2) ∧
  (∀ u v, v ∈ adj_get adj u ↔ Pair u v ∈ lines ∨ Pair v u ∈ lines) ∧
  (∀ u, u ∈ variables ↔ ∃ v, Pair u v ∈ lines ∨ Pair v u ∈ lines).
Proof.
  intros Hparse.
  destruct (parse_input_lines _ _ _ _ Hparse) as (Hk & Hadj & Hvars & _ & _).
  done.
Qed.

Lemma parse_input_reads_witness :
  ∃ l1 l2, small_lines = l1 ++ Colors (Some 3%Z) :: l2 ∧
           ∀ k', Colors (Some k') ∉ l2.
Proof.
  refine (proj1 (parse_input_reads small_lines 3 [1; 2; 3; 4]%Z small_graph _)).
  vm_compute. reflexivity.
Defined.

(** When [parse_input] gives up. *)
Lemma parse_input_None lines :
  parse_input lines = None ↔
  Colors None ∈ lines ∨ (∃ u, Pair u u ∈ lines) ∨ ∀ k, Colors (Some k) ∉ lines.
Proof.
  unfold parse_input.
  destruct (read_lines lines None ∅ ∅) as [[[k E] V]|] eqn:Hread.
  - assert (¬ (Colors None ∈ lines ∨ ∃ u, Pair u u ∈ lines)) as Hok.
    { rewrite <-(read_lines_None lines None ∅ ∅). congruence. }
    destruct (read_lines_Some _ _ _ _ _ _ _ Hread)
      as (_ & _ & [[-> Hno]|(k' & l1 & l2 & -> & -> & _)]).
    + split; [auto|done].
    + split; [done|]. intros [?|[?|Hno]]; [tauto..|].
      destruct (Hno k'). apply elem_of_app. right. left.
  - apply read_lines_None in Hread. split; [tauto|done].
Qed.

(** X18. [parse_input] prints 'failure' and exits exactly when a 'colors='
    line has no integer, or a pair names one vertex twice, or no line gives
    the number of colours. *)
Theorem parse_input_fails lines :
  parse_input lines = None ↔
  Colors None ∈ lines ∨ (∃ u, Pair u u ∈ lines) ∨ ∀ k, Colors (Some k) ∉ lines.
Proof. apply parse_input_None. Qed.

(** X19. The two vertices of a pair may come in either order: swapping them
    on any line changes nothing. *)
Theorem parse_input_undirected l1 u v l2 :
  parse_input (l1 ++ Pair u v :: l2) = parse_input (l1 ++ Pair v u :: l2).
Proof.
  unfold parse_input.
  assert (∀ k E V, read_lines (l1 ++ Pair u v :: l2) k E V
                 = read_lines (l1 ++ Pair v u :: l2) k E V) as ->; [|done].
  induction l1 as [|[|[k'|]|p q] l1 IH]; intros k E V; simpl; try done.
  - destruct (decide (u = v)) as [->|Hne]; [by rewrite decide_True|].
    rewrite (decide_False (P:=v = u)) by done.
    assert (norm_edge u v = norm_edge v u) as ->; [|done].
    unfold norm_edge. repeat case_decide; (done || (f_equal; lia)).
  - by case_decide.
Qed.

(** ** [main] *)

Lemma ordered_items_fst (m : gmap Z Z) : (ordered_items m).*1 = sorted (dom m).
Proof.
  unfold ordered_items.
  assert (∀ v, v ∈ sorted (dom m) → is_Some (m !! v)) as Hin.
  { intros v Hv%elem_of_sorted. by apply elem_of_dom. }
  induction (sorted (dom m)) as [|v l IH]; [done|]. simpl.
  destruct (Hin v) as [c ->]; [left|]. simpl. f_equal.
  apply IH. intros w Hw. apply Hin. by right.
Qed.

Lemma elem_of_ordered_items (m : gmap Z Z) u c :
  (u, c) ∈ ordered_items m ↔ m !! u = Some c.
Proof.
  unfold ordered_items. rewrite list_elem_of_omap. split.
  - intros (v & _ & Hv). destruct (m !! v) eqn:Hm; by simplify_eq/=.
  - intros Hu. exists u. rewrite Hu. split; [|done].
    apply elem_of_sorted. by eapply elem_of_dom_2.
Qed.

Lemma parse_input_closed lines k variables adj :
  parse_input lines = Some (k, variables, adj) →
  closed adj (list_to_set variables).
Proof.
  intros Hparse.
  destruct (parse_input_lines _ _ _ _ Hparse) as (_ & Hadj & Hvars & _ & _).
  intros u v _ Hv%Hadj. apply elem_of_list_to_set, Hvars. exists u. tauto.
Qed.

(** What [main] prints, in terms of the parsed graph. *)
Lemma main_cases lines :
  match parse_input lines with
  | None => main lines = Return None
  | Some (k, variables, adj) =>
      (variables = [] ∧ main lines = Return (Some [])) ∨
      (∃ m, main lines = Return (Some (ordered_items m)) ∧
            valid_coloring k variables adj m) ∨
      (variables ≠ [] ∧ main lines = Return None ∧
       ∀ m, ¬ valid_coloring k variables adj m)
  end.
Proof.
  unfold main. destruct (parse_input lines) as [[[k variables] adj]|] eqn:Hparse;
    [|done].
  destruct variables as [|v vs]; [by left|right].
  destruct (solve_graph_coloring_closed_returns k (v :: vs) adj)
    as [(m & -> & Hm)|[-> Hno]]; [by eapply parse_input_closed|left; eauto|].
  right. by split_and!.
Qed.

(** [main] within any depth ends in [RecursionError], which it does only
    when the file names at least as many vertices as the depth, or does
    what it does with depth enough. *)
Lemma main_within_cases depth lines :
  (main_within depth lines = Raise RecursionError ∧
   ∃ k variables adj,
     parse_input lines = Some (k, variables, adj) ∧ depth ≤ length variables) ∨
  main_within depth lines = main lines.
Proof.
  unfold main_within, main.
  destruct (parse_input lines) as [[[k variables] adj]|]; [|by right].
  destruct variables as [|v vs]; [by right|].
  destruct (le_lt_dec depth (size (list_to_set (v :: vs) : gset Z))) as [Hle|Hlt].
  - destruct (solve_within_cases depth k (v :: vs) adj) as [Hrec|Heq];
      rewrite ?Hrec, ?Heq; [|by right].
    left. split; [done|]. exists k, (v :: vs), adj. split; [done|].
    etrans; [done|]. apply size_list_to_set_le.
  - right. by rewrite solve_within_enough.
Qed.

(** X20. [main] raises nothing but [RecursionError], and that only when the
    file names at least as many vertices as the recursion can go deep:
    otherwise it prints 'failure' or a solution. *)
Theorem main_total depth lines :
  (∃ r, main_within depth lines = Return r) ∨
  (main_within depth lines = Raise RecursionError ∧
   ∃ k variables adj,
     parse_input lines = Some (k, variables, adj) ∧ depth ≤ length variables).
Proof.
  destruct (main_within_cases depth lines) as [?|Heq]; [by right|left].
  rewrite Heq.
  pose proof (main_cases lines) as Hcases.
  destruct (parse_input lines) as [[[k variables] adj]|]; [|eauto].
  destruct Hcases as [[_ ->]|[(m & -> & _)|(_ & -> & _)]]; eauto.
Qed.

(** X21. A solution that [main] prints lists the vertices that occur in the
    pairs of the file, each once and in increasing order, with a colour
    between 1 and the number given by the last 'colors=' line, and the two
    vertices of every pair of the file have different colours. *)
Theorem main_sound lines items :
  main lines = Return (Some items) →
  ∃ k,
    (∃ l1 l2, lines = l1 ++ Colors (Some k) :: l2 ∧ ∀ k', Colors (Some k') ∉ l2) ∧
    StronglySorted Z.lt items.*1 ∧
    (∀ u, u ∈ items.*1 ↔ ∃ v, Pair u v ∈ lines ∨ Pair v u ∈ lines) ∧
    (∀ u c, (u, c) ∈ items → (1 ≤ c ≤ k)%Z) ∧
    (∀ u v cu cv, Pair u v ∈ lines →
       (u, cu) ∈ items → (v, cv) ∈ items → cu ≠ cv).
Proof.
  intros Hmain. pose proof (main_cases lines) as Hcases.
  destruct (parse_input lines) as [[[k variables] adj]|] eqn:Hparse; [|congruence].
  destruct (parse_input_lines _ _ _ _ Hparse) as (Hk & Hadj & Hvars & _ & _).
  exists k. split; [done|].
  destruct Hcases as [[-> Heq]|[(m & Heq & Hdom & Hrange & Hproper)|(_ & Heq & _)]];
    [| |congruence].
  - rewrite Heq in Hmain. injection Hmain as <-. split_and!.
    + constructor.
    + intros u. rewrite <-Hvars. done.
    + by intros ?? ?%elem_of_nil.
    + by intros ???? _ ?%elem_of_nil.
  - rewrite Heq in Hmain. injection Hmain as <-. split_and!.
    + rewrite ordered_items_fst. apply sorted_increasing.
    + intros u. rewrite ordered_items_fst, elem_of_sorted, Hdom, <-Hvars.
      apply elem_of_list_to_set.
    + intros u c Hu%elem_of_ordered_items. by apply (Hrange u).
    + intros u v cu cv Hpair Hu%elem_of_ordered_items Hv%elem_of_ordered_items.
      apply (Hproper u v); [|done..]. apply Hadj. by left.
Qed.

Lemma main_sound_witness :
  ∃ k,
    (∃ l1 l2, small_lines = l1 ++ Colors (Some k) :: l2 ∧
       ∀ k', Colors (Some k') ∉ l2) ∧
    StronglySorted Z.lt (ordered_items small_coloring).*1 ∧
    (∀ u, u ∈ (ordered_items small_coloring).*1 ↔
       ∃ v, Pair u v ∈ small_lines ∨ Pair v u ∈ small_lines) ∧
    (∀ u c, (u, c) ∈ ordered_items small_coloring → (1 ≤ c ≤ k)%Z) ∧
    (∀ u v cu cv, Pair u v ∈ small_lines →
       (u, cu) ∈ ordered_items small_coloring →
       (v, cv) ∈ ordered_items small_coloring → cu ≠ cv).
Proof.
  apply (main_sound small_lines (ordered_items small_coloring)).
  vm_compute. reflexivity.
Defined.

(** X22. When [main] prints 'failure', [parse_input] has rejected the file
    or the graph it returns has no valid colouring with the given number of
    colours. On such a file [main] prints 'failure', unless the file names
    at least as many vertices as the recursion can go deep and the search
    ends in [RecursionError]. *)
Theorem main_failure depth lines :
  (main_within depth lines = Return None →
   parse_input lines = None ∨
   ∃ k variables adj,
     parse_input lines = Some (k, variables, adj) ∧
     ∀ m, ¬ valid_coloring k variables adj m) ∧
  (parse_input lines = None ∨
   (∃ k variables adj,
      parse_input lines = Some (k, variables, adj) ∧
      ∀ m, ¬ valid_coloring k variables adj m) →
   main_within depth lines = Return None ∨
   (main_within depth lines = Raise RecursionError ∧
    ∃ k variables adj,
      parse_input lines = Some (k, variables, adj) ∧ depth ≤ length variables)).
Proof.
  assert (main lines = Return None ↔
    parse_input lines = None ∨
    ∃ k variables adj,
      parse_input lines = Some (k, variables, adj) ∧
      ∀ m, ¬ valid_coloring k variables adj m) as Hmain.
  { pose proof (main_cases lines) as Hcases.
    destruct (parse_input lines) as [[[k variables] adj]|] eqn:Hparse;
      [|split; auto].
    destruct Hcases as [[-> Heq]|[(m & Heq & Hm)|(_ & Heq & Hno)]]; rewrite Heq.
    - split; [done|]. intros [?|(k' & vs & adj' & [= <- <- <-] & Hno)]; [done|].
      destruct (Hno ∅). split_and!; [by rewrite dom_empty_L|..].
      + intros ?? H. by rewrite lookup_empty in H.
      + intros ????? H. by rewrite lookup_empty in H.
    - split; [done|]. intros [?|(k' & vs & adj' & [= <- <- <-] & Hno)]; [done|].
      by destruct (Hno m).
    - split; [|done]. intros _. right. by exists k, variables, adj. }
  destruct (main_within_cases depth lines) as [[Hrec ?]|Heq].
  - split; [congruence|]. intros _. by right.
  - rewrite Heq. split; [apply Hmain|]. intros ?%Hmain. by left.
Qed.

(** X23. With a 'colors=' line and no pair, [main] prints the empty
    solution, whatever the number of colours. *)
Theorem main_no_pairs lines k :
  Colors None ∉ lines →
  Colors (Some k) ∈ lines →
  (∀ u v, Pair u v ∉ lines) →
  main lines = Return (Some []).
Proof.
  intros Hbad Hk Hpairs. pose proof (main_cases lines) as Hcases.
  destruct (parse_input lines) as [[[k' variables] adj]|] eqn:Hparse.
  - destruct (parse_input_lines _ _ _ _ Hparse) as (_ & _ & Hvars & _ & _).
    assert (variables = []) as ->.
    { apply elem_of_nil_inv. intros u (v & [Hv|Hv])%Hvars; by eapply Hpairs. }
    destruct Hcases as [[_ ?]|[(m & Heq & Hdom & _)|(? & _)]]; [done| |done].
    rewrite Heq. do 2 f_equal.
    apply dom_empty_inv_L in Hdom as ->. by vm_compute.
  - apply parse_input_None in Hparse as [?|[[u Hu]|Hno]]; [done| |].
    + by destruct (Hpairs u u).
    + by destruct (Hno k).
Qed.

Lemma main_no_pairs_witness :
  main [Ignored; Colors (Some (-2)%Z)] = Return (Some []).
Proof.
  apply (main_no_pairs [Ignored; Colors (Some (-2)%Z)] (-2)).
  - intros [[=]|[[=]|[]%elem_of_nil]%elem_of_cons]%elem_of_cons.
  - right. left.
  - intros u v [[=]|[[=]|[]%elem_of_nil]%elem_of_cons]%elem_of_cons.
Defined.

(** ** The completion of the assignment *)

Lemma foldl_min_spec (x : Z) (xs : list Z) :
  foldl Z.min x xs ∈ x :: xs ∧ ∀ y, y ∈ x :: xs → (foldl Z.min x xs ≤ y)%Z.
Proof.
  revert x. induction xs as [|z xs IH]; intros x; simpl.
  - split; [left|]. intros y ->%list_elem_of_singleton. lia.
  - destruct (IH (x `min` z)%Z) as [Hin Hle]. split.
    + apply elem_of_cons in Hin as [->|Hin]; [|right; by right].
      destruct (Z.min_spec x z) as [[_ ->]|[_ ->]]; [left|right; left].
    + intros y Hy.
      assert (foldl Z.min (x `min` z)%Z xs ≤ x `min` z)%Z by (apply Hle; left).
      apply elem_of_cons in Hy as [->|[->|Hy]%elem_of_cons]; [lia..|].
      apply Hle. by right.
Qed.

Lemma set_min_spec (dom : gset Z) c :
  set_min dom = Some c ↔ c ∈ dom ∧ ∀ y, y ∈ dom → (c ≤ y)%Z.
Proof.
  unfold set_min.
  assert (∀ y, y ∈ elements dom ↔ y ∈ dom) as Hel by (intros; apply elem_of_elements).
  destruct (elements dom) as [|x xs].
  - split; [done|]. intros [Hc%Hel _]. by apply elem_of_nil in Hc.
  - destruct (foldl_min_spec x xs) as [Hin Hle]. split.
    + intros [= <-]. split; [by apply Hel|]. intros y Hy%Hel. by apply Hle.
    + intros [Hc%Hel Hmin]. f_equal.
      assert (foldl Z.min x xs ≤ c)%Z by by apply Hle.
      assert (c ≤ foldl Z.min x xs)%Z by (apply Hmin; by apply Hel). lia.
Qed.

(** X24. The completion loop at the end of [solve_graph_coloring], on
    variables that are variables of the store: it returns [None] exactly
    when an unassigned variable has an empty domain; otherwise it keeps
    every colour already assigned, gives each unassigned variable the least
    colour of its domain, and leaves every variable of the list assigned. *)
Theorem assemble_spec variables d a :
  (∀ v, v ∈ variables → is_Some (d !! v)) →
  (assemble variables d a = Return None ∧
   ∃ v, v ∈ variables ∧ a !! v = None ∧ d !! v = Some ∅) ∨
  (∃ m, assemble variables d a = Return (Some m) ∧
     a ⊆ m ∧
     (∀ v, v ∈ variables → is_Some (m !! v)) ∧
     (∀ v c, m !! v = Some c → a !! v = None →
        v ∈ variables ∧ ∃ dom, d !! v = Some dom ∧ c ∈ dom ∧
          ∀ y, y ∈ dom → (c ≤ y)%Z) ∧
     (∀ v dom, v ∈ variables → a !! v = None → d !! v = Some dom → dom ≠ ∅)).
Proof.
  revert a. induction variables as [|v vs IH]; intros a Hknown; simpl.
  - right. exists a. split_and!; [done..| | |].
    + by intros ? ?%elem_of_nil.
    + intros w c Hw Ha. congruence.
    + by intros ?? ?%elem_of_nil.
  - assert (∀ w, w ∈ vs → is_Some (d !! w)) as Hknown'
      by (intros w Hw; apply Hknown; by right).
    destruct (a !! v) as [c0|] eqn:Hav.
    + destruct (IH a Hknown') as [(-> & w & Hw & ? & ?)|(m & -> & Hsub & Hall & Hmin & Hne)].
      * left. split; [done|]. exists w. split_and!; [by right|done..].
      * right. exists m. split_and!; [done..| | |].
        -- intros w [->|Hw]%elem_of_cons; [|by apply Hall].
           exists c0. by eapply lookup_weaken.
        -- intros w c Hw Haw. destruct (Hmin w c Hw Haw) as [? ?].
           split; [by right|done].
        -- intros w dom [->|Hw]%elem_of_cons Haw; [congruence|by apply Hne].
    + destruct (Hknown v) as [dom Hdom]; [left|]. rewrite Hdom.
      case_decide as Hsz.
      * destruct (set_min dom) as [c|] eqn:Hc.
        2:{ exfalso. unfold set_min in Hc.
            destruct (elements dom) eqn:Hel; [|done].
            apply elements_empty_iff, size_empty_iff in Hel. lia. }
        apply set_min_spec in Hc as [Hcin Hcmin].
        destruct (IH (<[v := c]> a) Hknown')
          as [(-> & w & Hw & Haw & Hdw)|(m & -> & Hsub & Hall & Hmin & Hne)].
        -- left. split; [done|]. exists w. split_and!; [by right| |done].
           apply lookup_insert_None in Haw. tauto.
        -- right. exists m.
           assert (m !! v = Some c) as Hmv
             by (eapply lookup_weaken; [apply lookup_insert_eq|done]).
           split_and!; [done| | | |].
           ++ etrans; [|done]. by apply insert_subseteq.
           ++ intros w [->|Hw]%elem_of_cons; [eauto|by apply Hall].
           ++ intros w c' Hw Haw. destruct (decide (v = w)) as [<-|Hvw].
              ** simplify_eq. split; [left|eauto].
              ** destruct (Hmin w c' Hw) as [? ?];
                   [by rewrite lookup_insert_ne|]. split; [by right|done].
           ++ intros w dom' [->|Hw]%elem_of_cons Haw Hdw.
              ** simplify_eq. intros ->. by apply elem_of_empty in Hcin.
              ** destruct (decide (v = w)) as [<-|Hvw].
                 --- simplify_eq. intros ->. by apply elem_of_empty in Hcin.
                 --- apply (Hne w); [done|by rewrite lookup_insert_ne|done].
      * left. split; [done|]. exists v. split_and!; [left|done|].
        rewrite Hdom. f_equal. apply leibniz_equiv, size_empty_iff. lia.
Qed.

Lemma assemble_spec_witness :
  (assemble [1; 2]%Z (domains two_vertices) {[2%Z := 2%Z]} = Return None ∧
   ∃ v, v ∈ [1; 2]%Z ∧ ({[2%Z := 2%Z]} : gmap Z Z) !! v = None ∧
        domains two_vertices !! v = Some ∅) ∨
  (∃ m, assemble [1; 2]%Z (domains two_vertices) {[2%Z := 2%Z]} = Return (Some m) ∧
     ({[2%Z := 2%Z]} : gmap Z Z) ⊆ m ∧
     (∀ v, v ∈ [1; 2]%Z → is_Some (m !! v)) ∧
     (∀ v c, m !! v = Some c → ({[2%Z := 2%Z]} : gmap Z Z) !! v = None →
        v ∈ [1; 2]%Z ∧ ∃ dom, domains two_vertices !! v = Some dom ∧ c ∈ dom ∧
          ∀ y, y ∈ dom → (c ≤ y)%Z) ∧
     (∀ v dom, v ∈ [1; 2]%Z → ({[2%Z := 2%Z]} : gmap Z Z) !! v = None →
        domains two_vertices !! v = Some dom → dom ≠ ∅)).
Proof.
  apply (assemble_spec [1; 2]%Z (domains two_vertices) {[2%Z := 2%Z]}).
  intros v Hv. simpl. rewrite initial_domains_lookup. rewrite decide_True by done.
  eauto.
Defined.

(** X25. In [solve_graph_coloring] the completion loop never has anything to
    do: a mapping that the solver returns is the assignment that [backtrack]
    has built, unchanged. *)
Theorem solve_graph_coloring_search_assignment k variables adj m :
  solve_graph_coloring k variables adj = Return (Some m) →
  ∃ s1 s2,
    ac3 adj (initial_queue variables adj) (Store (initial_domains k variables) [])
    = (Return true, s1) ∧
    empty_found (domains s1) = false ∧
    backtrack (S (size (domains s1))) adj s1 ∅ = (Return true, s2, m).
Proof.
  unfold solve_graph_coloring.
  destruct (ac3 adj (initial_queue variables adj)
              (Store (initial_domains k variables) [])) as [[[]|e|] s1] eqn:Hac3;
    [|done..].
  destruct (empty_found (domains s1)) eqn:Hempty; [done|].
  pose proof (backtrack_spec adj (S (size (domains s1))) s1 ∅) as Hbt.
  destruct (backtrack (S (size (domains s1))) adj s1 ∅) as [[[[]|e|] s2] a2]
    eqn:Hback; [|done..].
  destruct Hbt as (Hfw & _ & Hdom & _).
  { rewrite dom_empty_L. apply empty_subseteq. }
  { rewrite dom_empty_L, difference_empty_L, size_dom. lia. }
  rewrite assemble_assigned.
  - intros [= <-]. exists s1, s2. by rewrite Hempty, Hback.
  - intros v Hv. apply elem_of_dom. rewrite Hdom.
    rewrite (shrunk_dom _ _ (forward_shrunk _ _ Hfw)).
    rewrite (shrunk_dom _ _ (forward_shrunk _ _ (ac3_forward _ _ _ _ _ Hac3))).
    simpl. rewrite initial_domains_dom. by apply elem_of_list_to_set.
Qed.

Lemma solve_graph_coloring_search_assignment_witness :
  ∃ s1 s2,
    ac3 small_graph (initial_queue [1; 2; 3; 4]%Z small_graph)
      (Store (initial_domains 3 [1; 2; 3; 4]%Z) [])
    = (Return true, s1) ∧
    empty_found (domains s1) = false ∧
    backtrack (S (size (domains s1))) small_graph s1 ∅
    = (Return true, s2, small_coloring).
Proof.
  apply (solve_graph_coloring_search_assignment 3 [1; 2; 3; 4]%Z small_graph).
  vm_compute. reflexivity.
Defined.
